(** * GuassRankScaler: a shallow embedding of [preprocessors/gauss_rank_scaler.py]

    The scaler fits, per feature column, a piecewise-linear map from the
    column's distinct values to clipped, rescaled ranks, and composes it with
    [erfinv] (forward) or [erf] followed by the swapped map (inverse).

    Number model.  A numpy [float64] is embedded as [float64] below: a finite
    value is an exact rational, and the three IEEE-754 special values are kept
    as constructors, with the IEEE rules for them (0/0 = nan, r/0 = +-inf,
    inf - inf = nan, nan never compares).  Rounding, overflow and the sign of
    zero are not modelled: the embedded arithmetic is the binary64 one
    wherever every intermediate result is a binary fraction the format holds
    exactly, as in the instances evaluated below.  What is stated of the code
    in general is kept to what does not depend on how a finite result is
    rounded: which control points and which expression a call evaluates,
    what is raised, comparisons of the inputs, and order facts that a
    correctly rounded arithmetic preserves.  The auxiliary lemmas on scaled
    ranks and on interpolators as rationals are facts of the exact
    arithmetic.

    Libraries.  numpy's array operations are embedded on lists as numpy
    defines them.  scipy's [interp1d] (kind 'linear', the default of the
    scaler, with fill_value 'extrapolate'), sklearn's [check_array] and
    [check_is_fitted], and joblib's [Parallel] are not part of the
    repository; they are modelled from their contracts, each under a comment
    that says so.  [erf] and [erfinv] on finite arguments are parameters.

    Methods are functions from the instance to an outcome and the instance
    after the call, so that what a call leaves in [self] can be stated. *)

From Stdlib Require Import QArith ZArith List Bool Arith Lia Lqa.
From Stdlib Require Import Permutation Sorted.
Import ListNotations.

#[local] Set Warnings "-abstract-large-number".

(** ** IEEE-754 values with exact finite arithmetic *)

Module Float64.

Inductive float64 : Type :=
| Fin (q : Q)
| PInf
| NInf
| NaN.

Definition of_nat (n : nat) : float64 := Fin (inject_Z (Z.of_nat n)).

Definition isfinite (a : float64) : bool :=
  match a with Fin _ => true | _ => false end.

Definition isnan (a : float64) : bool :=
  match a with NaN => true | _ => false end.

Definition Qltb (a b : Q) : bool := negb (Qle_bool b a).

Definition neg (a : float64) : float64 :=
  match a with
  | Fin q => Fin (- q)
  | PInf => NInf
  | NInf => PInf
  | NaN => NaN
  end.

Definition add (a b : float64) : float64 :=
  match a, b with
  | NaN, _ | _, NaN => NaN
  | Fin p, Fin q => Fin (p + q)
  | PInf, NInf | NInf, PInf => NaN
  | PInf, _ | _, PInf => PInf
  | NInf, _ | _, NInf => NInf
  end.

Definition sub (a b : float64) : float64 := add a (neg b).

(** The sign of an infinity times a finite factor; zero times infinity is nan. *)
Definition scale_inf (pos : bool) (q : Q) : float64 :=
  if Qeq_bool q 0 then NaN
  else if Qltb 0 q then (if pos then PInf else NInf)
  else (if pos then NInf else PInf).

Definition mul (a b : float64) : float64 :=
  match a, b with
  | NaN, _ | _, NaN => NaN
  | Fin p, Fin q => Fin (p * q)
  | PInf, Fin q | Fin q, PInf => scale_inf true q
  | NInf, Fin q | Fin q, NInf => scale_inf false q
  | PInf, PInf | NInf, NInf => PInf
  | PInf, NInf | NInf, PInf => NaN
  end.

Definition div (a b : float64) : float64 :=
  match a, b with
  | NaN, _ | _, NaN => NaN
  | Fin p, Fin q =>
      if Qeq_bool q 0 then
        (if Qeq_bool p 0 then NaN else if Qltb 0 p then PInf else NInf)
      else Fin (p / q)
  | Fin _, _ => Fin 0
  | PInf, Fin q => if Qltb q 0 then NInf else PInf
  | NInf, Fin q => if Qltb q 0 then PInf else NInf
  | _, _ => NaN
  end.

(** [a < b] and [a <= b]; false as soon as one side is nan. *)
Definition ltb (a b : float64) : bool :=
  match a, b with
  | NaN, _ | _, NaN => false
  | Fin p, Fin q => Qltb p q
  | NInf, NInf | PInf, _ | Fin _, NInf => false
  | NInf, _ | Fin _, PInf => true
  end.

Definition leb (a b : float64) : bool :=
  match a, b with
  | NaN, _ | _, NaN => false
  | Fin p, Fin q => Qle_bool p q
  | NInf, _ | _, PInf => true
  | PInf, _ | Fin _, NInf => false
  end.

Definition eqb (a b : float64) : bool := leb a b && leb b a.

(** The order numpy sorts by: the usual one, with nan after everything. *)
Definition sort_leb (a b : float64) : bool :=
  match a, b with
  | _, NaN => true
  | NaN, _ => false
  | _, _ => leb a b
  end.

(** [np.maximum] and [np.minimum] return nan when either argument is nan. *)
Definition maximum (a b : float64) : float64 :=
  match a, b with
  | NaN, _ | _, NaN => NaN
  | _, _ => if ltb a b then b else a
  end.

Definition minimum (a b : float64) : float64 :=
  match a, b with
  | NaN, _ | _, NaN => NaN
  | _, _ => if ltb b a then b else a
  end.

(** Equality of values: rational equality on finite ones. *)
Definition feq (a b : float64) : Prop :=
  match a, b with
  | Fin p, Fin q => p == q
  | PInf, PInf | NInf, NInf | NaN, NaN => True
  | _, _ => False
  end.

End Float64.
Import Float64.

#[local] Open Scope nat_scope.

(** ** Python exceptions and results *)

(** The exception classes the calls can raise, by the class that is raised:
    [ValueError] by the validation of [check_array] and by numpy, scipy and
    joblib on bad arguments, [NotFittedError] by [check_is_fitted] (sklearn
    derives it from [ValueError]; it reports the state of the instance, not
    its input), [IndexError] by an out-of-range list index. *)
Inductive exn : Type :=
| ValueError
| NotFittedError
| IndexError.

Inductive result (A : Type) : Type :=
| Ok (a : A)
| Raise (e : exn).
Arguments Ok {A} a.
Arguments Raise {A} e.

Definition rbind {A B} (r : result A) (k : A -> result B) : result B :=
  match r with Ok a => k a | Raise e => Raise e end.

(** Run the computations of a list from left to right; the first exception
    stops the run. *)
Fixpoint sequence {A} (l : list (result A)) : result (list A) :=
  match l with
  | [] => Ok []
  | r :: t => rbind r (fun a => rbind (sequence t) (fun t' => Ok (a :: t')))
  end.

(** ** The numpy operations the scaler calls *)

Module Np.

Section Argsort.
Context {A : Type} (le : A -> A -> bool).

(** Insertion that keeps an earlier element before later equal ones. *)
Fixpoint insert (p : A * nat) (l : list (A * nat)) : list (A * nat) :=
  match l with
  | [] => [p]
  | h :: t => if le (fst p) (fst h) then p :: l else h :: insert p t
  end.

Fixpoint sort_pairs (l : list (A * nat)) : list (A * nat) :=
  match l with
  | [] => []
  | p :: t => insert p (sort_pairs t)
  end.

Definition enumerate (x : list A) : list (A * nat) :=
  combine x (seq 0 (length x)).

(** [np.argsort(x)], stable: the indices of [x] in ascending order of value. *)
Definition argsort (x : list A) : list nat :=
  map snd (sort_pairs (enumerate x)).
End Argsort.

Definition argsort_float : list float64 -> list nat := argsort sort_leb.
Definition argsort_int : list nat -> list nat := argsort Nat.leb.

(** [x[ind]] for an index array [ind]. *)
Definition take (x : list float64) (ind : list nat) : list float64 :=
  map (fun i => nth i x NaN) ind.

(** First index of every run of equal values in an array sorted through
    [perm]: what [np.unique(x, return_index=True)[1]] returns. *)
Fixpoint run_heads (x : list float64) (prev : option float64) (perm : list nat)
  : list nat :=
  match perm with
  | [] => []
  | i :: t =>
      let v := nth i x NaN in
      let rest := run_heads x (Some v) t in
      match prev with
      | Some p => if eqb p v then rest else i :: rest
      | None => i :: rest
      end
  end.

Definition unique_index (x : list float64) : list nat :=
  run_heads x None (argsort_float x).

(** [k = np.zeros_like(x, dtype=bool); k[ind] = True] *)
Definition mask_of (n : nat) (ind : list nat) : list bool :=
  map (fun i => existsb (Nat.eqb i) ind) (seq 0 n).

(** [x[k]] for a boolean mask [k]: the selected entries, in array order. *)
Fixpoint select (x : list float64) (k : list bool) : list float64 :=
  match x, k with
  | v :: x', b :: k' => if b then v :: select x' k' else select x' k'
  | _, _ => []
  end.

(** [np.max] of an integer array; numpy raises on an empty one. *)
Definition max (r : list nat) : result nat :=
  match r with
  | [] => Raise ValueError
  | a :: t => Ok (fold_left Nat.max t a)
  end.

Definition clip (a lo hi : float64) : float64 := minimum (maximum a lo) hi.

(** [np.searchsorted(xs, v)] (side left) on an ascending array. *)
Fixpoint searchsorted (xs : list float64) (v : float64) : nat :=
  match xs with
  | [] => 0
  | a :: t => if ltb a v then S (searchsorted t v) else 0
  end.

(** Integer clip of an index: [idx.clip(lo, hi)] is [min(max(idx, lo), hi)]. *)
Definition clip_index (i lo hi : Z) : Z := Z.min (Z.max i lo) hi.

(** Python indexing [xs[i]] on an array, a negative [i] counting from the end. *)
Definition getitem (xs : list float64) (i : Z) : float64 :=
  let n := Z.of_nat (length xs) in
  let j := if (i <? 0)%Z then (i + n)%Z else i in
  if (j <? 0)%Z then NaN else nth (Z.to_nat j) xs NaN.

(** [X.T] of an array given as its rows, with [ncols] columns. *)
Definition transpose (ncols : nat) (rows : list (list float64))
  : list (list float64) :=
  map (fun j => map (fun r => nth j r NaN) rows) (seq 0 ncols).

End Np.

(** ** scipy.interpolate.interp1d, kind 'linear', fill_value 'extrapolate' *)

Module Scipy.

(** The fitted object: its control points, ascending in [x]. *)
Record interp1d : Type := mk_interp1d {
  x : list float64;
  y : list float64
}.

(** Modelled from the spec: scipy's [interp1d] constructor is not part of the
    repository.  With [assume_sorted=False] it sorts the control points by
    abscissa with a stable sort, and it refuses arrays of different lengths or
    with fewer than [minval] entries; [minval] is 2 in older scipy releases
    and 1 in newer ones, so it is a parameter here. *)
Definition interp1d_init (minval : nat) (xs ys : list float64)
  : result interp1d :=
  if negb (length xs =? length ys) then Raise ValueError
  else if length xs <? minval then Raise ValueError
  else
    let ind := Np.argsort_float xs in
    Ok (mk_interp1d (Np.take xs ind) (Np.take ys ind)).

(** Modelled from the spec: [interp1d.__call__] for kind 'linear' with
    'extrapolate' ([_call_linear]): locate the segment with [searchsorted],
    clip the index into [1, len-1], and evaluate the segment's line, also
    outside the range of the control points. *)
Definition call_linear (f : interp1d) (x_new : float64) : float64 :=
  let n := Z.of_nat (length (x f)) in
  let idx := Np.clip_index (Z.of_nat (Np.searchsorted (x f) x_new)) 1 (n - 1) in
  let lo := (idx - 1)%Z in
  let hi := idx in
  let x_lo := Np.getitem (x f) lo in
  let x_hi := Np.getitem (x f) hi in
  let y_lo := Np.getitem (y f) lo in
  let y_hi := Np.getitem (y f) hi in
  let slope := div (sub y_hi y_lo) (sub x_hi x_lo) in
  add (mul slope (sub x_new x_lo)) y_lo.

Definition call (f : interp1d) (x_new : list float64) : list float64 :=
  map (call_linear f) x_new.

End Scipy.

(** ** sklearn.utils.validation *)

Module Sklearn.

(** Modelled from the spec: sklearn's [check_array] is not part of the
    repository.  With the arguments the scaler passes it accepts a
    rectangular array with at least one row and one column whose entries are
    all finite, and raises a validation error otherwise. *)
Definition check_array (X : list (list float64)) : result (list (list float64)) :=
  match X with
  | [] => Raise ValueError
  | r0 :: _ =>
      if negb (forallb (fun r => length r =? length r0) X) then Raise ValueError
      else if length r0 =? 0 then Raise ValueError
      else if negb (forallb (forallb isfinite) X) then Raise ValueError
      else Ok X
  end.

(** [X.shape[1]] of a validated array. *)
Definition n_features (X : list (list float64)) : nat :=
  match X with [] => 0 | r0 :: _ => length r0 end.

(** [check_is_fitted(self, attr)]: the attribute must have been set. *)
Definition check_is_fitted {A} (attr : option A) : result A :=
  match attr with Some a => Ok a | None => Raise NotFittedError end.

End Sklearn.

(** ** joblib.Parallel *)

Module Joblib.

Section Parallel.
Context {A : Type}.

(** Number of CPUs of the machine the code runs on. *)
Variable cpu_count : nat.

(** Modelled from the spec: joblib is not part of the repository.
    [n_jobs=None] means one worker, a positive count is taken as it is, a
    negative one counts back from the number of CPUs, and zero is refused. *)
Definition effective_n_jobs (n_jobs : option Z) : result nat :=
  match n_jobs with
  | None => Ok 1
  | Some n =>
      if (n =? 0)%Z then Raise ValueError
      else if (0 <? n)%Z then Ok (Z.to_nat n)
      else Ok (Nat.max 1 (Z.to_nat (Z.of_nat cpu_count + 1 + n)))
  end.

Definition task : Type := unit -> result A.

(** The tasks worker [j] of [w] receives: those whose index is [j] modulo [w]. *)
Definition dispatch (w : nat) (tasks : list (nat * task)) (j : nat)
  : list (nat * task) :=
  filter (fun t => (fst t) mod w =? j) tasks.

Definition run_worker (ts : list (nat * task)) : list (nat * result A) :=
  map (fun t => (fst t, snd t tt)) ts.

(** Outcomes in the order the workers hand them back. *)
Definition completed (w : nat) (tasks : list (nat * task))
  : list (nat * result A) :=
  flat_map (fun j => run_worker (dispatch w tasks j)) (seq 0 w).

(** Reassembly by task index; the exception of the first failed task is
    raised. *)
Definition collect (n : nat) (outcomes : list (nat * result A))
  : result (list A) :=
  sequence
    (map (fun i =>
            match find (fun d => fst d =? i) outcomes with
            | Some d => snd d
            | None => Raise ValueError
            end)
         (seq 0 n)).

(** Modelled from the spec: [Parallel(n_jobs=n)(tasks)] runs independent
    tasks on the configured number of workers and returns their results in
    input order. *)
Definition Parallel (n_jobs : option Z) (tasks : list task)
  : result (list A) :=
  rbind (effective_n_jobs n_jobs) (fun w =>
    collect (length tasks)
            (completed w (combine (seq 0 (length tasks)) tasks))).
End Parallel.

End Joblib.

(** ** The estimator *)

Section GuassRankScaler.

(** The error function and its inverse on finite arguments
    ([scipy.special.erf], [scipy.special.erfinv]); transcendental, hence
    parameters of the development. *)
Variable erf_fin : Q -> Q.
Variable erfinv_fin : Q -> Q.
Variable cpu_count : nat.
(** Least number of control points [interp1d] accepts (see [interp1d_init]). *)
Variable minval : nat.

(** [erf] tends to +-1 at +-inf. *)
Definition erf (z : float64) : float64 :=
  match z with
  | Fin q => Fin (erf_fin q)
  | PInf => Fin 1
  | NInf => Fin (-1)
  | NaN => NaN
  end.

(** [erfinv] is finite inside (-1, 1), infinite at +-1 and nan outside. *)
Definition erfinv (q : float64) : float64 :=
  match q with
  | Fin r =>
      if Qeq_bool r 1 then PInf
      else if Qeq_bool r (-1) then NInf
      else if Qltb (-1) r && Qltb r 1 then Fin (erfinv_fin r)
      else NaN
  | _ => NaN
  end.

(** The instance: constructor arguments and the attribute [fit] sets.
    The constructor's [interp_kind] and [interp_copy] are taken at their
    defaults: [interp_params] is kind 'linear' with fill_value 'extrapolate',
    the only interpolation rule embedded, and every statement below is about
    a scaler built with that rule; [interp_copy] has no effect on values. *)
Record GuassRankScaler : Type := mk_GuassRankScaler {
  epsilon : Q;
  copy : bool;
  n_jobs : option Z;
  interp_func_ : option (list Scipy.interp1d)
}.

(** [__init__], with the defaults of the signature when [None] is given. *)
Definition __init__ (epsilon : option Q) (copy : option bool) (n_jobs : option Z)
  : GuassRankScaler :=
  mk_GuassRankScaler
    (match epsilon with Some e => e | None => (1 # 10000)%Q end)
    (match copy with Some c => c | None => true end)
    n_jobs
    None.

Definition set_interp_func_ (self : GuassRankScaler) (fs : list Scipy.interp1d)
  : GuassRankScaler :=
  mk_GuassRankScaler (epsilon self) (copy self) (n_jobs self) (Some fs).

(** Methods run in a state-and-exception monad over the instance. *)
Definition M (A : Type) : Type := GuassRankScaler -> result A * GuassRankScaler.

Definition ret {A} (a : A) : M A := fun self => (Ok a, self).

Definition bind {A B} (m : M A) (k : A -> M B) : M B :=
  fun self =>
    match m self with
    | (Ok a, self') => k a self'
    | (Raise e, self') => (Raise e, self')
    end.

Definition lift {A} (r : result A) : M A := fun self => (r, self).

Definition get : M GuassRankScaler := fun self => (Ok self, self).

Definition assign_interp_func_ (fs : list Scipy.interp1d) : M unit :=
  fun self => (Ok tt, set_interp_func_ self fs).

Notation "v <- m ;; k" := (bind m (fun v => k))
  (at level 61, m at next level, right associativity).

(** [drop_duplicates]: keep the first occurrence of every distinct value. *)
Definition drop_duplicates (x : list float64) : list float64 :=
  let k := Np.mask_of (length x) (Np.unique_index x) in
  Np.select x k.

(** [rank = np.argsort(np.argsort(x))].  numpy's default sort is not stable;
    both arrays sorted here have pairwise distinct entries ([x] has been
    deduplicated, and [argsort] returns a permutation), where every sort
    returns the same indices as the stable one. *)
Definition rank_of (x : list float64) : list nat :=
  Np.argsort_int (Np.argsort_float x).

(** Lines 95 to 97 of [_fit] for one rank [r], given [np.max(rank)]:
    [bound], [factor], the quotient before the clip, and the clipped value. *)
Definition bound_of (eps : Q) : float64 := sub (Fin 1) (Fin eps).

Definition factor_of (eps : Q) (max_rank : nat) : float64 :=
  mul (div (of_nat max_rank) (Fin 2)) (bound_of eps).

Definition unclipped_rank (eps : Q) (max_rank : nat) (r : nat) : float64 :=
  sub (div (of_nat r) (factor_of eps max_rank)) (bound_of eps).

Definition scale_rank (eps : Q) (max_rank : nat) (r : nat) : float64 :=
  Np.clip (unclipped_rank eps max_rank r) (neg (bound_of eps)) (bound_of eps).

(** [_fit] up to the construction of the interpolator: the deduplicated
    column and its scaled ranks. *)
Definition scaled_rank (eps : Q) (x : list float64)
  : result (list float64 * list float64) :=
  let x := drop_duplicates x in
  let rank := rank_of x in
  rbind (Np.max rank) (fun max_rank =>
    Ok (x, map (scale_rank eps max_rank) rank)).

Definition _fit (self : GuassRankScaler) (x : list float64)
  : result Scipy.interp1d :=
  rbind (scaled_rank (epsilon self) x) (fun xs =>
    Scipy.interp1d_init minval (fst xs) (snd xs)).

Definition fit (X : list (list float64)) : M unit :=
  X <- lift (Sklearn.check_array X) ;;
  self <- get ;;
  fs <- lift (Joblib.Parallel cpu_count (n_jobs self)
                (map (fun x _ => _fit self x)
                     (Np.transpose (Sklearn.n_features X) X))) ;;
  assign_interp_func_ fs.

(** [self.interp_func_[i]] on the fitted list. *)
Definition interp_func_at (fs : list Scipy.interp1d) (i : nat)
  : result Scipy.interp1d :=
  match nth_error fs i with
  | Some f => Ok f
  | None => Raise IndexError
  end.

Definition _transform (fs : list Scipy.interp1d) (i : nat) (x : list float64)
  : result (list float64) :=
  rbind (interp_func_at fs i) (fun f => Ok (map erfinv (Scipy.call f x))).

Definition _inverse_transform (fs : list Scipy.interp1d) (i : nat)
  (x : list float64) : result (list float64) :=
  rbind (interp_func_at fs i) (fun f =>
    rbind (Scipy.interp1d_init minval (Scipy.y f) (Scipy.x f))
          (fun inv_interp_func => Ok (Scipy.call inv_interp_func (map erf x)))).

(** [enumerate(X.T)]: the columns of a validated array with their indices. *)
Definition columns (X : list (list float64)) : list (nat * list float64) :=
  combine (seq 0 (Sklearn.n_features X)) (Np.transpose (Sklearn.n_features X) X).

(** The body shared by [transform] and [inverse_transform]: fitted check,
    validation, one task per input column, and the columns put back side by
    side ([np.array(...).T]).  The [copy] argument only selects whether
    [check_array] duplicates its buffer and is left out. *)
Definition per_column
  (task : list Scipy.interp1d -> nat -> list float64 -> result (list float64))
  (X : list (list float64)) : M (list (list float64)) :=
  self <- get ;;
  fs <- lift (Sklearn.check_is_fitted (interp_func_ self)) ;;
  X <- lift (Sklearn.check_array X) ;;
  cols <- lift (Joblib.Parallel cpu_count (n_jobs self)
                  (map (fun ix _ => task fs (fst ix) (snd ix)) (columns X))) ;;
  ret (Np.transpose (length X) cols).

Definition transform (X : list (list float64)) : M (list (list float64)) :=
  per_column _transform X.

Definition inverse_transform (X : list (list float64))
  : M (list (list float64)) :=
  per_column _inverse_transform X.

End GuassRankScaler.


(** ** Reference definitions the properties are stated against *)

(** The distinct values of a column in order of first appearance: an entry is
    kept when no earlier entry equals it. *)
Fixpoint first_occurrences (seen x : list float64) : list float64 :=
  match x with
  | [] => []
  | v :: t =>
      if existsb (fun p => eqb p v) seen
      then first_occurrences (seen ++ [v]) t
      else v :: first_occurrences (seen ++ [v]) t
  end.

(** The scaling of lines 95 to 97 on rationals, for a non-zero factor. *)
Definition bound_q (eps : Q) : Q := 1 + - eps.

Definition factor_q (eps : Q) (max_rank : nat) : Q :=
  inject_Z (Z.of_nat max_rank) / 2 * bound_q eps.

Definition raw_q (eps : Q) (max_rank r : nat) : Q :=
  inject_Z (Z.of_nat r) / factor_q eps max_rank + - bound_q eps.

Definition clip_q (a lo hi : Q) : Q :=
  let a' := if Qltb a lo then lo else a in
  if Qltb hi a' then hi else a'.

Definition quantile_q (eps : Q) (max_rank r : nat) : Q :=
  clip_q (raw_q eps max_rank r) (- bound_q eps) (bound_q eps).

(** The rational a finite value stands for. *)
Definition to_q (a : float64) : Q :=
  match a with Fin q => q | _ => 0 end.

(** The line through the control points number [k-1] and [k], at [v]. *)
Definition segment_q (qx qy : list Q) (k : nat) (v : Q) : Q :=
  ((nth k qy 0 + - nth (k - 1) qy 0) / (nth k qx 0 + - nth (k - 1) qx 0)
   * (v + - nth (k - 1) qx 0) + nth (k - 1) qy 0)%Q.

(** The value [_call_linear] computes on the segment between two control
    points: [slope * (x_new - x_lo) + y_lo] with
    [slope = (y_hi - y_lo) / (x_hi - x_lo)]. *)
Definition line_through (x_lo y_lo x_hi y_hi x_new : float64) : float64 :=
  add (mul (div (sub y_hi y_lo) (sub x_hi x_lo)) (sub x_new x_lo)) y_lo.

(** A concrete pair of mutually inverse functions, used where a closed
    example needs some [erf] and [erfinv]. *)
Definition example_erf (q : Q) : Q := q.

(** Integer-valued entries for examples. *)
Definition F (z : Z) : float64 := Fin (inject_Z z).

(** [X.shape == (n, c)] *)
Definition has_shape (n c : nat) (X : list (list float64)) : Prop :=
  length X = n /\ Forall (fun row => length row = c) X.

(** A stored interpolator can be inverted by [_inverse_transform]. *)
Definition invertible_shape (minval : nat) (f : Scipy.interp1d) : Prop :=
  length (Scipy.x f) = length (Scipy.y f) /\ minval <= length (Scipy.x f).

(** The call ended with an exception. *)
Definition raised {A} (r : result A) : bool :=
  match r with Raise _ => true | Ok _ => false end.

(** The order the stable sort of [argsort] establishes on (value, index)
    pairs: keys ascend, and equal keys keep their index order. *)
Definition lexlt {A} (le : A -> A -> bool) (p q : A * nat) : Prop :=
  le (fst p) (fst q) = true /\ (le (fst q) (fst p) = true -> snd p < snd q).

(** A value that [check_array] accepts. *)
Definition finite (a : float64) : Prop := isfinite a = true.

(** The fitted control points of a column: its distinct values in ascending
    order, against the scaled ranks 0 .. m-1. *)
Definition fitted_mapping (eps : Q) (x : list float64) : Scipy.interp1d :=
  let u := first_occurrences [] x in
  let m := length u in
  Scipy.mk_interp1d (Np.take u (Np.argsort_float u))
                    (map (scale_rank eps (m - 1)) (seq 0 m)).

(** An array has a non-finite entry somewhere. *)
Definition has_nonfinite (X : list (list float64)) : Prop :=
  exists row v, In row X /\ In v row /\ isfinite v = false.

(** The instance with another [n_jobs]. *)
Definition with_n_jobs (self : GuassRankScaler) (n : option Z) : GuassRankScaler :=
  mk_GuassRankScaler (epsilon self) (copy self) n (interp_func_ self).

(** ** The task runner returns results in input order *)

Section ParallelFacts.
Context {A : Type}.
Variable cpu_count : nat.

Lemma effective_n_jobs_pos n_jobs w :
  Joblib.effective_n_jobs cpu_count n_jobs = Ok w -> 1 <= w.
Proof.
  unfold Joblib.effective_n_jobs.
  destruct n_jobs as [n|]; [|intros [= <-]; lia].
  destruct (n =? 0)%Z eqn:E0; [discriminate|].
  destruct (0 <? n)%Z eqn:E1; intros [= <-];
    [|destruct (Z.to_nat (Z.of_nat cpu_count + 1 + n)); lia].
  apply Z.ltb_lt in E1. lia.
Qed.

Lemma effective_n_jobs_some n :
  (1 <= n)%Z -> Joblib.effective_n_jobs cpu_count (Some n) = Ok (Z.to_nat n).
Proof.
  intros Hn. unfold Joblib.effective_n_jobs.
  destruct (n =? 0)%Z eqn:E0; [apply Z.eqb_eq in E0; lia|].
  destruct (0 <? n)%Z eqn:E1; [reflexivity|].
  apply Z.ltb_ge in E1. lia.
Qed.

Lemma in_indexed_tasks (tasks : list (@Joblib.task A)) off i t :
  In (i, t) (combine (seq off (length tasks)) tasks) ->
  off <= i /\ nth_error tasks (i - off) = Some t.
Proof.
  revert off. induction tasks as [|t0 tasks IH]; intros off; simpl; [tauto|].
  intros [[= <- <-]|Hin].
  - split; [lia|]. now rewrite Nat.sub_diag.
  - apply IH in Hin as [Hle Hnth]. split; [lia|].
    replace (i - off) with (S (i - S off)) by lia. exact Hnth.
Qed.

Lemma indexed_tasks_in (tasks : list (@Joblib.task A)) off k t :
  nth_error tasks k = Some t ->
  In (off + k, t) (combine (seq off (length tasks)) tasks).
Proof.
  revert off k. induction tasks as [|t0 tasks IH]; intros off [|k]; simpl;
    try discriminate.
  - intros [= ->]. left. now rewrite Nat.add_0_r.
  - intros Hk. right. replace (off + S k) with (S off + k) by lia. now apply IH.
Qed.

Lemma in_completed w (its : list (nat * @Joblib.task A)) d :
  In d (Joblib.completed w its) <->
  exists t, In t its /\ d = (fst t, snd t tt) /\ fst t mod w < w.
Proof.
  unfold Joblib.completed, Joblib.run_worker, Joblib.dispatch.
  rewrite in_flat_map. split.
  - intros (j & Hj & Hin). apply in_map_iff in Hin as (t & <- & Ht).
    apply filter_In in Ht as [Ht Hm]. apply Nat.eqb_eq in Hm.
    apply in_seq in Hj. exists t. rewrite Hm. split; [assumption|].
    split; [reflexivity|lia].
  - intros (t & Ht & -> & Hlt). exists (fst t mod w). split.
    + apply in_seq. lia.
    + apply in_map_iff. exists t. split; [reflexivity|].
      apply filter_In. split; [assumption|apply Nat.eqb_refl].
Qed.

Lemma find_completed w (tasks : list (@Joblib.task A)) i t :
  1 <= w -> nth_error tasks i = Some t ->
  exists d,
    find (fun d => fst d =? i)
         (Joblib.completed w (combine (seq 0 (length tasks)) tasks)) = Some d
    /\ snd d = t tt.
Proof.
  intros Hw Hi.
  set (done := Joblib.completed w (combine (seq 0 (length tasks)) tasks)).
  destruct (find (fun d => fst d =? i) done) as [d|] eqn:Hf.
  - exists d. split; [reflexivity|].
    apply find_some in Hf as [Hin Hk]. apply Nat.eqb_eq in Hk.
    apply in_completed in Hin as ([j t'] & Hin & -> & _).
    simpl in *. subst j. apply in_indexed_tasks in Hin as [_ Hn].
    rewrite Nat.sub_0_r in Hn. congruence.
  - exfalso.
    assert (Hin : In (i, t tt) done).
    { apply in_completed. exists (i, t). simpl. repeat split.
      - now apply (indexed_tasks_in tasks 0 i t).
      - apply Nat.mod_upper_bound. lia. }
    apply (find_none _ _ Hf) in Hin. simpl in Hin.
    rewrite Nat.eqb_refl in Hin. discriminate.
Qed.

Lemma collect_in_order w (tasks : list (@Joblib.task A)) :
  1 <= w ->
  Joblib.collect (length tasks)
    (Joblib.completed w (combine (seq 0 (length tasks)) tasks))
  = sequence (map (fun t => t tt) tasks).
Proof.
  intros Hw. unfold Joblib.collect. f_equal.
  apply nth_error_ext. intros i.
  rewrite !nth_error_map.
  destruct (nth_error tasks i) as [t|] eqn:Hi.
  - assert (Hlt : i < length tasks) by (apply nth_error_Some; congruence).
    rewrite (nth_error_nth' _ 0) by (rewrite length_seq; exact Hlt).
    rewrite seq_nth by exact Hlt. simpl.
    destruct (find_completed w tasks i t Hw Hi) as (d & -> & Hd).
    rewrite Hd. unfold Joblib.task in *. rewrite Hi. reflexivity.
  - assert (nth_error (seq 0 (length tasks)) i = None) as ->.
    { apply nth_error_None. rewrite length_seq. now apply nth_error_None. }
    unfold Joblib.task in *. rewrite Hi. reflexivity.
Qed.

(** Whatever the number of workers, [Parallel] yields what a left-to-right
    run of the tasks yields. *)
Lemma Parallel_in_order n_jobs w (tasks : list (@Joblib.task A)) :
  Joblib.effective_n_jobs cpu_count n_jobs = Ok w ->
  Joblib.Parallel cpu_count n_jobs tasks = sequence (map (fun t => t tt) tasks).
Proof.
  intros Hw. unfold Joblib.Parallel. rewrite Hw. simpl.
  apply collect_in_order. exact (effective_n_jobs_pos _ _ Hw).
Qed.
End ParallelFacts.

(** ** Runs of task lists *)

Section SequenceFacts.
Context {A B : Type}.

Lemma sequence_all_ok (f : A -> result B) (g : A -> B) l :
  (forall a, In a l -> f a = Ok (g a)) ->
  sequence (map f l) = Ok (map g l).
Proof.
  induction l as [|a l IH]; intros H; simpl; [reflexivity|].
  rewrite (H a) by now left. simpl.
  rewrite IH by (intros; apply H; now right). reflexivity.
Qed.

Lemma sequence_raise (f : A -> result B) e l :
  (forall a, In a l -> f a = Raise e \/ exists b, f a = Ok b) ->
  (exists a, In a l /\ f a = Raise e) ->
  sequence (map f l) = Raise e.
Proof.
  induction l as [|a l IH]; intros Hall (a0 & Hin & Ha0); [destruct Hin|].
  simpl. destruct (Hall a (or_introl eq_refl)) as [->|[b Hb]]; [reflexivity|].
  rewrite Hb. simpl. rewrite IH; [reflexivity| |].
  - intros a' Ha'. apply Hall. now right.
  - destruct Hin as [<-|Hin]; [congruence|]. now exists a0.
Qed.

Lemma sequence_ok_inv (f : A -> result B) l bs :
  sequence (map f l) = Ok bs -> Forall2 (fun a b => f a = Ok b) l bs.
Proof.
  revert bs. induction l as [|a l IH]; intros bs; simpl.
  - intros [= <-]. constructor.
  - destruct (f a) as [b|e] eqn:Ha; simpl; [|discriminate].
    destruct (sequence (map f l)) as [bs'|e]; simpl; [|discriminate].
    intros [= <-]. constructor; [exact Ha|now apply IH].
Qed.
End SequenceFacts.

(** ** The methods, with the task runner replaced by an in-order run *)

Section MethodFacts.
Variable cpu_count minval : nat.

Lemma fit_unfold X self :
  fit cpu_count minval X self =
  match Sklearn.check_array X with
  | Raise e => (Raise e, self)
  | Ok X' =>
      match Joblib.Parallel cpu_count (n_jobs self)
              (map (fun x _ => _fit minval self x)
                   (Np.transpose (Sklearn.n_features X') X')) with
      | Raise e => (Raise e, self)
      | Ok fs => (Ok tt, set_interp_func_ self fs)
      end
  end.
Proof.
  unfold fit, bind, lift, get, assign_interp_func_.
  destruct (Sklearn.check_array X); [|reflexivity].
  destruct (Joblib.Parallel _ _ _); reflexivity.
Qed.

Lemma per_column_unfold task X self :
  per_column cpu_count task X self =
  match interp_func_ self with
  | None => (Raise NotFittedError, self)
  | Some fs =>
      match Sklearn.check_array X with
      | Raise e => (Raise e, self)
      | Ok X' =>
          match Joblib.Parallel cpu_count (n_jobs self)
                  (map (fun ix _ => task fs (fst ix) (snd ix)) (columns X')) with
          | Raise e => (Raise e, self)
          | Ok cols => (Ok (Np.transpose (length X') cols), self)
          end
      end
  end.
Proof.
  unfold per_column, bind, lift, get, ret,
    Sklearn.check_is_fitted.
  destruct (interp_func_ self); [|reflexivity].
  destruct (Sklearn.check_array X); [|reflexivity].
  destruct (Joblib.Parallel _ _ _); reflexivity.
Qed.

Lemma check_array_ok X X' : Sklearn.check_array X = Ok X' -> X' = X.
Proof.
  unfold Sklearn.check_array. destruct X as [|r0 X]; [discriminate|].
  repeat match goal with |- context [if ?c then _ else _] => destruct c end;
    congruence.
Qed.

Lemma check_array_nonfinite X :
  has_nonfinite X -> Sklearn.check_array X = Raise ValueError.
Proof.
  intros (row & v & Hrow & Hv & Hfin). unfold Sklearn.check_array.
  destruct X as [|r0 X]; [destruct Hrow|].
  destruct (negb (forallb _ (r0 :: X))); [reflexivity|].
  destruct (length r0 =? 0); [reflexivity|].
  destruct (forallb (forallb isfinite) (r0 :: X)) eqn:Hall; [|reflexivity].
  rewrite forallb_forall in Hall. specialize (Hall row Hrow).
  rewrite forallb_forall in Hall. rewrite (Hall v Hv) in Hfin. discriminate.
Qed.

Lemma fit_in_order X self w :
  Joblib.effective_n_jobs cpu_count (n_jobs self) = Ok w ->
  fit cpu_count minval X self =
  match Sklearn.check_array X with
  | Raise e => (Raise e, self)
  | Ok X' =>
      match sequence (map (_fit minval self)
                          (Np.transpose (Sklearn.n_features X') X')) with
      | Raise e => (Raise e, self)
      | Ok fs => (Ok tt, set_interp_func_ self fs)
      end
  end.
Proof.
  intros Hw. rewrite fit_unfold.
  destruct (Sklearn.check_array X) as [X'|e]; [|reflexivity].
  rewrite (Parallel_in_order cpu_count _ w) by exact Hw.
  rewrite map_map. reflexivity.
Qed.

Lemma per_column_in_order task X self w :
  Joblib.effective_n_jobs cpu_count (n_jobs self) = Ok w ->
  per_column cpu_count task X self =
  match interp_func_ self with
  | None => (Raise NotFittedError, self)
  | Some fs =>
      match Sklearn.check_array X with
      | Raise e => (Raise e, self)
      | Ok X' =>
          match sequence (map (fun ix => task fs (fst ix) (snd ix))
                              (columns X')) with
          | Raise e => (Raise e, self)
          | Ok cols => (Ok (Np.transpose (length X') cols), self)
          end
      end
  end.
Proof.
  intros Hw. rewrite per_column_unfold.
  destruct (interp_func_ self) as [fs|]; [|reflexivity].
  destruct (Sklearn.check_array X) as [X'|e]; [|reflexivity].
  rewrite (Parallel_in_order cpu_count _ w) by exact Hw.
  rewrite map_map. reflexivity.
Qed.

Lemma per_column_state task X self : snd (per_column cpu_count task X self) = self.
Proof.
  rewrite per_column_unfold.
  destruct (interp_func_ self); [|reflexivity].
  destruct (Sklearn.check_array X); [|reflexivity].
  destruct (Joblib.Parallel _ _ _); reflexivity.
Qed.

End MethodFacts.

(** ** The stable sort behind [argsort] *)

Section SortFacts.
Context {A : Type} (le : A -> A -> bool).
Hypothesis le_total : forall a b, le a b = true \/ le b a = true.
Hypothesis le_trans :
  forall a b c, le a b = true -> le b c = true -> le a c = true.

Lemma insert_perm p l : Permutation (Np.insert le p l) (p :: l).
Proof.
  induction l as [|h t IH]; simpl; [reflexivity|].
  destruct (le (fst p) (fst h)); [reflexivity|].
  rewrite IH. apply perm_swap.
Qed.

Lemma sort_pairs_perm l : Permutation (Np.sort_pairs le l) l.
Proof.
  induction l as [|p t IH]; simpl; [reflexivity|].
  rewrite insert_perm. now constructor.
Qed.

Lemma sort_pairs_length l : length (Np.sort_pairs le l) = length l.
Proof. apply Permutation_length, sort_pairs_perm. Qed.

Lemma insert_sorted p l :
  StronglySorted (lexlt le) l ->
  (forall q, In q l -> snd p < snd q) ->
  StronglySorted (lexlt le) (Np.insert le p l).
Proof.
  induction l as [|h t IH]; intros Hs Hidx; simpl.
  - repeat constructor.
  - apply StronglySorted_inv in Hs as [Hst Hh].
    destruct (le (fst p) (fst h)) eqn:Hph.
    + constructor; [constructor; assumption|].
      rewrite Forall_forall in *. intros q [<-|Hq].
      * split; [assumption|]. intros _. apply Hidx. now left.
      * split; [|intros _; apply Hidx; now right].
        apply (le_trans _ (fst h)); [assumption|apply (Hh q Hq)].
    + constructor.
      * apply IH; [assumption|]. intros q Hq. apply Hidx. now right.
      * rewrite Forall_forall in *. intros q Hq.
        apply (Permutation_in _ (insert_perm p t)) in Hq as [<-|Hq].
        -- split; [|congruence].
           destruct (le_total (fst h) (fst p)); congruence.
        -- now apply Hh.
Qed.

Lemma sort_pairs_sorted l :
  StronglySorted (fun p q : A * nat => snd p < snd q) l ->
  StronglySorted (lexlt le) (Np.sort_pairs le l).
Proof.
  induction l as [|p t IH]; intros Hs; simpl; [constructor|].
  apply StronglySorted_inv in Hs as [Hst Hp].
  apply insert_sorted; [now apply IH|].
  intros q Hq. apply (Permutation_in _ (sort_pairs_perm t)) in Hq.
  rewrite Forall_forall in Hp. now apply Hp.
Qed.

Lemma enumerate_from_sorted (x : list A) off :
  StronglySorted (fun p q : A * nat => snd p < snd q)
                 (combine x (seq off (length x))).
Proof.
  revert off. induction x as [|a x IH]; intros off; simpl; constructor.
  - apply IH.
  - apply Forall_forall. intros [v i] Hin. apply in_combine_r in Hin.
    apply in_seq in Hin. simpl. lia.
Qed.

Lemma in_enumerate_from (x : list A) off v i d :
  In (v, i) (combine x (seq off (length x))) <->
  off <= i < off + length x /\ nth (i - off) x d = v.
Proof.
  revert off. induction x as [|a x IH]; intros off; simpl.
  - split; [tauto|lia].
  - rewrite IH. split.
    + intros [[= <- <-]|[Hi Hv]].
      * rewrite Nat.sub_diag. split; [lia|reflexivity].
      * split; [lia|]. replace (i - off) with (S (i - S off)) by lia.
        exact Hv.
    + intros [Hi Hv]. destruct (Nat.eq_dec i off) as [->|Hne].
      * left. rewrite Nat.sub_diag in Hv. congruence.
      * right. split; [lia|].
        replace (i - off) with (S (i - S off)) in Hv by lia. exact Hv.
Qed.

Lemma in_enumerate (x : list A) v i d :
  In (v, i) (Np.enumerate x) <-> i < length x /\ nth i x d = v.
Proof.
  unfold Np.enumerate. rewrite (in_enumerate_from x 0 v i d).
  rewrite Nat.sub_0_r. simpl. intuition lia.
Qed.

Lemma map_snd_enumerate (x : list A) : map snd (Np.enumerate x) = seq 0 (length x).
Proof.
  unfold Np.enumerate. generalize 0.
  induction x as [|a x IH]; intros off; simpl; [reflexivity|].
  now rewrite IH.
Qed.

Lemma map_fst_enumerate (x : list A) : map fst (Np.enumerate x) = x.
Proof.
  unfold Np.enumerate. generalize 0.
  induction x as [|a x IH]; intros off; simpl; [reflexivity|].
  now rewrite IH.
Qed.

Lemma argsort_perm (x : list A) :
  Permutation (Np.argsort le x) (seq 0 (length x)).
Proof.
  unfold Np.argsort. rewrite <- map_snd_enumerate.
  apply Permutation_map, sort_pairs_perm.
Qed.

Lemma argsort_length (x : list A) : length (Np.argsort le x) = length x.
Proof.
  rewrite (Permutation_length (argsort_perm x)). apply length_seq.
Qed.

(** The sorted pairs of an array are strongly sorted, stably. *)
Lemma sorted_enumerate (x : list A) :
  StronglySorted (lexlt le) (Np.sort_pairs le (Np.enumerate x)).
Proof. apply sort_pairs_sorted, enumerate_from_sorted. Qed.

Lemma in_sorted_enumerate (x : list A) v i d :
  In (v, i) (Np.sort_pairs le (Np.enumerate x)) <->
  i < length x /\ nth i x d = v.
Proof.
  rewrite <- in_enumerate. split; intros H.
  - now apply (Permutation_in _ (sort_pairs_perm _)).
  - now apply (Permutation_in _ (Permutation_sym (sort_pairs_perm _))).
Qed.

(** Reading an array through its [argsort] gives the sorted keys. *)
Lemma take_argsort (x : list A) d :
  map (fun i => nth i x d) (Np.argsort le x)
  = map fst (Np.sort_pairs le (Np.enumerate x)).
Proof.
  unfold Np.argsort. rewrite map_map. apply map_ext_in.
  intros [v i] Hin. apply (in_sorted_enumerate x v i d) in Hin as [_ Hv].
  exact Hv.
Qed.
End SortFacts.

(** ** Sorted lists of integers *)

Lemma sorted_lt_perm_eq (l l' : list nat) :
  StronglySorted lt l -> StronglySorted lt l' -> Permutation l l' -> l = l'.
Proof.
  revert l'. induction l as [|a t IH]; intros l' Hs Hs' Hp.
  - apply Permutation_nil in Hp. now subst.
  - destruct l' as [|b t'].
    + apply Permutation_sym, Permutation_nil in Hp. discriminate.
    + apply StronglySorted_inv in Hs as [Hst Ha].
      apply StronglySorted_inv in Hs' as [Hst' Hb].
      rewrite Forall_forall in Ha, Hb.
      assert (a = b) as ->.
      { assert (Hin : In a (b :: t')) by (apply (Permutation_in _ Hp); now left).
        assert (Hin' : In b (a :: t))
          by (apply (Permutation_in _ (Permutation_sym Hp)); now left).
        destruct Hin as [->|Hin]; [reflexivity|].
        destruct Hin' as [->|Hin']; [reflexivity|].
        apply Ha in Hin'. apply Hb in Hin. lia. }
      f_equal. apply IH; try assumption.
      now apply Permutation_cons_inv in Hp.
Qed.

Lemma seq_sorted off n : StronglySorted lt (seq off n).
Proof.
  revert off. induction n as [|n IH]; intros off; simpl; constructor.
  - apply IH.
  - apply Forall_forall. intros i Hi. apply in_seq in Hi. lia.
Qed.

Lemma leb_total a b : Nat.leb a b = true \/ Nat.leb b a = true.
Proof.
  destruct (Nat.le_ge_cases a b) as [H|H]; [left|right]; now apply Nat.leb_le.
Qed.

Lemma leb_trans a b c :
  Nat.leb a b = true -> Nat.leb b c = true -> Nat.leb a c = true.
Proof. rewrite !Nat.leb_le. lia. Qed.

Section InversePermutation.
Variable p : list nat.
Variable m : nat.
Hypothesis p_perm : Permutation p (seq 0 m).

Let S := Np.sort_pairs Nat.leb (Np.enumerate p).

Lemma p_length : length p = m.
Proof. rewrite (Permutation_length p_perm). apply length_seq. Qed.

Lemma p_nodup : NoDup p.
Proof.
  apply (Permutation_NoDup (Permutation_sym p_perm)), seq_NoDup.
Qed.

Lemma sorted_keys : map fst S = seq 0 m.
Proof.
  apply sorted_lt_perm_eq; [|apply seq_sorted|].
  - assert (Hs : StronglySorted (lexlt Nat.leb) S)
      by apply (sorted_enumerate Nat.leb leb_total leb_trans).
    assert (Hin : forall q, In q S -> nth (snd q) p 0 = fst q /\ snd q < length p).
    { intros [v i] Hq. apply (in_sorted_enumerate Nat.leb p v i 0) in Hq.
      simpl. tauto. }
    clearbody S. induction Hs as [|q l Hl IHl Hq]; simpl; constructor.
    + apply IHl. intros q' Hq'. apply Hin. now right.
    + rewrite Forall_forall in *. intros k Hk.
      apply in_map_iff in Hk as (q' & <- & Hq').
      destruct (Hq q' Hq') as [Hle Hidx]. apply Nat.leb_le in Hle.
      destruct (Nat.eq_dec (fst q) (fst q')) as [Heq|Hne]; [|lia].
      exfalso.
      assert (Hlt : snd q < snd q').
      { apply Hidx. apply Nat.leb_le. lia. }
      destruct (Hin q (or_introl eq_refl)) as [Hq1 Hq2].
      destruct (Hin q' (or_intror Hq')) as [Hq1' Hq2'].
      assert (snd q = snd q'); [|lia].
      apply (proj1 (NoDup_nth p 0) p_nodup); try assumption. congruence.
  - unfold S. rewrite (Permutation_map fst (sort_pairs_perm Nat.leb _)).
    rewrite map_fst_enumerate. exact p_perm.
Qed.

(** [argsort] of a permutation is its inverse. *)
Lemma argsort_int_inverse_l k :
  k < m ->
  nth k (Np.argsort_int p) 0 < m /\ nth (nth k (Np.argsort_int p) 0) p 0 = k.
Proof.
  intros Hk. unfold Np.argsort_int, Np.argsort. fold S.
  assert (Hlen : length S = m).
  { unfold S. rewrite sort_pairs_length. unfold Np.enumerate.
    rewrite length_combine, length_seq, Nat.min_id. apply p_length. }
  assert (Hin : In (nth k S (0, 0)) S) by (apply nth_In; lia).
  assert (Hfst : fst (nth k S (0, 0)) = k).
  { change (fst (nth k S (0, 0))) with (fst (nth k S (fst (0, 0), 0))).
    rewrite <- (map_nth fst). rewrite sorted_keys. now apply seq_nth. }
  destruct (nth k S (0, 0)) as [v i] eqn:E. simpl in Hfst. subst v.
  assert (Hsnd : nth k (map snd S) 0 = i).
  { change (nth k (map snd S) 0) with (nth k (map snd S) (snd (0, 0))).
    now rewrite map_nth, E. }
  rewrite Hsnd.
  apply (in_sorted_enumerate Nat.leb p k i 0) in Hin. rewrite p_length in Hin.
  exact Hin.
Qed.

Lemma argsort_int_inverse_r t :
  t < m -> nth (nth t p 0) (Np.argsort_int p) 0 = t.
Proof.
  intros Ht.
  assert (Hk : nth t p 0 < m).
  { assert (Hin : In (nth t p 0) p) by (apply nth_In; rewrite p_length; lia).
    apply (Permutation_in _ p_perm) in Hin. apply in_seq in Hin. lia. }
  destruct (argsort_int_inverse_l _ Hk) as [Hlt Heq].
  apply (proj1 (NoDup_nth p 0) p_nodup); rewrite ?p_length; assumption.
Qed.

Lemma argsort_int_perm : Permutation (Np.argsort_int p) (seq 0 m).
Proof.
  unfold Np.argsort_int. rewrite <- p_length. apply argsort_perm.
Qed.
End InversePermutation.

(** ** Order facts on [float64] *)

Lemma Qltb_lt a b : Qltb a b = true <-> (a < b)%Q.
Proof.
  unfold Qltb. rewrite negb_true_iff. split.
  - intros H. apply Qnot_le_lt. intros Hle.
    apply Qle_bool_iff in Hle. congruence.
  - intros H. destruct (Qle_bool b a) eqn:E; [|reflexivity].
    apply Qle_bool_iff in E. apply Qlt_not_le in H. contradiction.
Qed.

Lemma Qltb_ge a b : Qltb a b = false <-> (b <= a)%Q.
Proof.
  unfold Qltb. rewrite negb_false_iff. apply Qle_bool_iff.
Qed.

Lemma Qeq_bool_false a b : Qeq_bool a b = false <-> ~ (a == b)%Q.
Proof.
  split.
  - intros H Heq. apply Qeq_bool_iff in Heq. congruence.
  - intros H. destruct (Qeq_bool a b) eqn:E; [|reflexivity].
    apply Qeq_bool_iff in E. contradiction.
Qed.

Lemma sort_leb_total a b : sort_leb a b = true \/ sort_leb b a = true.
Proof.
  destruct a as [p| | |], b as [q| | |]; simpl; auto.
  destruct (Qle_bool p q) eqn:E; [now left|right].
  apply Qle_bool_iff. apply Qlt_le_weak, Qnot_le_lt. intros H.
  apply Qle_bool_iff in H. congruence.
Qed.

Lemma sort_leb_trans a b c :
  sort_leb a b = true -> sort_leb b c = true -> sort_leb a c = true.
Proof.
  destruct a as [p| | |], b as [q| | |], c as [r| | |]; simpl; auto;
    try discriminate.
  rewrite !Qle_bool_iff. apply Qle_trans.
Qed.

Lemma sort_leb_finite a b : finite a -> finite b -> sort_leb a b = leb a b.
Proof. destruct a, b; simpl; try discriminate; reflexivity. Qed.

Lemma leb_trans_f a b c : leb a b = true -> leb b c = true -> leb a c = true.
Proof.
  destruct a as [p| | |], b as [q| | |], c as [r| | |]; simpl; auto;
    try discriminate.
  rewrite !Qle_bool_iff. apply Qle_trans.
Qed.

Lemma eqb_true a b : eqb a b = true <-> leb a b = true /\ leb b a = true.
Proof. unfold eqb. apply andb_true_iff. Qed.

Lemma eqb_refl_finite a : finite a -> eqb a a = true.
Proof.
  destruct a; try discriminate. intros _. apply eqb_true.
  simpl. split; apply Qle_bool_iff, Qle_refl.
Qed.

Lemma eqb_sym a b : eqb a b = eqb b a.
Proof. unfold eqb. apply andb_comm. Qed.

Lemma eqb_trans a b c : eqb a b = true -> eqb b c = true -> eqb a c = true.
Proof.
  rewrite !eqb_true. intros [H1 H2] [H3 H4].
  split; eapply leb_trans_f; eassumption.
Qed.

Lemma eqb_feq a b : finite a -> eqb a b = true <-> feq a b.
Proof.
  destruct a as [p| | |]; try discriminate. intros _.
  destruct b as [q| | |]; simpl; unfold eqb; simpl;
    try (split; [discriminate|tauto]).
  rewrite andb_true_iff, !Qle_bool_iff. split.
  - intros [H1 H2]. now apply Qle_antisym.
  - intros H. rewrite H. split; apply Qle_refl.
Qed.

Lemma ltb_not_leb a b : finite a -> finite b -> ltb a b = negb (leb b a).
Proof. destruct a, b; simpl; try discriminate; reflexivity. Qed.

(** ** [np.unique] picks first occurrences *)

Section UniqueFacts.
Variable x : list float64.
Hypothesis x_finite : Forall finite x.

Lemma nth_finite i : i < length x -> finite (nth i x NaN).
Proof.
  intros Hi. rewrite Forall_forall in x_finite. apply x_finite.
  now apply nth_In.
Qed.

Lemma run_heads_spec S prev :
  StronglySorted (lexlt sort_leb) S ->
  (forall v i, In (v, i) S -> i < length x /\ nth i x NaN = v) ->
  (forall p, prev = Some p ->
             finite p /\ forall q, In q S -> leb p (fst q) = true) ->
  forall i,
    In i (Np.run_heads x prev (map snd S)) <->
    exists v, In (v, i) S
              /\ (forall p, prev = Some p -> eqb p v = false)
              /\ (forall w j, In (w, j) S -> eqb w v = true -> i <= j).
Proof.
  intros Hs. revert prev.
  induction Hs as [|[v0 i0] S' Hs' IH Hh]; intros prev Hx Hprev i.
  - simpl. split; [tauto|]. intros (v & [] & _).
  - rewrite Forall_forall in Hh.
    assert (Hfin : forall w j, In (w, j) ((v0, i0) :: S') -> finite w).
    { intros w j Hin. apply Hx in Hin as [Hj <-]. now apply nth_finite. }
    assert (Hv0 : finite v0) by (apply (Hfin v0 i0); now left).
    assert (Hle : forall w j, In (w, j) S' ->
              leb v0 w = true /\ (leb w v0 = true -> i0 < j)).
    { intros w j Hin. destruct (Hh _ Hin) as [H1 H2]. simpl in H1, H2.
      assert (finite w) by (apply (Hfin w j); now right).
      rewrite !sort_leb_finite in * by assumption. tauto. }
    assert (Hnth : nth i0 x NaN = v0) by (apply Hx; now left).
    specialize (IH (Some v0)).
    assert (IH' : forall i,
               In i (Np.run_heads x (Some v0) (map snd S')) <->
               exists v, In (v, i) S' /\ eqb v0 v = false
                         /\ (forall w j, In (w, j) S' -> eqb w v = true -> i <= j)).
    { intros i'. rewrite IH.
      - split; intros (v & H1 & H2 & H3); exists v; repeat split; auto.
        intros p [= <-]. exact H2.
      - intros w j Hin. apply Hx. now right.
      - intros p [= <-]. split; [assumption|].
        intros [w j] Hin. simpl. now apply (Hle w j). }
    clear IH.
    assert (Hmin : forall v, In (v, i) S' ->
              (forall w j, In (w, j) ((v0, i0) :: S') -> eqb w v = true -> i <= j) ->
              eqb v0 v = false).
    { intros v Hin Hm. destruct (eqb v0 v) eqn:E; [|reflexivity].
      exfalso. specialize (Hm v0 i0 (or_introl eq_refl) E).
      apply eqb_true in E as [_ E]. apply (Hle v i Hin) in E. lia. }
    assert (Hhead : forall w j, In (w, j) ((v0, i0) :: S') ->
              eqb w v0 = true -> i0 <= j).
    { intros w j [[= <- <-]|Hin] E; [lia|].
      apply eqb_true in E as [E _]. apply (Hle w j Hin) in E. lia. }
    simpl. rewrite Hnth.
    destruct prev as [p|].
    + destruct (Hprev p eq_refl) as [Hp Hpq].
      destruct (eqb p v0) eqn:Epv.
      * rewrite IH'. split.
        -- intros (v & H1 & H2 & H3). exists v. split; [now right|]. split.
           ++ intros p' [= <-]. destruct (eqb p v) eqn:E; [|reflexivity].
              rewrite eqb_sym in Epv.
              rewrite (eqb_trans _ _ _ Epv E) in H2. discriminate.
           ++ intros w j [[= <- <-]|Hin] E; [congruence|]. now apply (H3 w j).
        -- intros (v & [[= <- <-]|H1] & H2 & H3).
           ++ rewrite (H2 p eq_refl) in Epv. discriminate.
           ++ exists v. split; [assumption|]. split; [now apply Hmin|].
              intros w j Hin. apply (H3 w j). now right.
      * simpl. rewrite IH'. split.
        -- intros [<-|(v & H1 & H2 & H3)].
           ++ exists v0. split; [now left|]. split; [|exact Hhead].
              intros p' [= <-]. exact Epv.
           ++ exists v. split; [now right|]. split.
              ** intros p' [= <-]. destruct (eqb p v) eqn:E; [|reflexivity].
                 exfalso. apply eqb_true in E as [E1 E2].
                 assert (leb p v0 = true) by (apply (Hpq (v0, i0)); now left).
                 assert (leb v0 p = true).
                 { apply (leb_trans_f _ v); [apply (Hle v i H1)|assumption]. }
                 assert (eqb p v0 = true) by (apply eqb_true; tauto).
                 congruence.
              ** intros w j [[= <- <-]|Hin] E; [congruence|]. now apply (H3 w j).
        -- intros (v & [[= <- <-]|H1] & H2 & H3); [now left|]. right.
           exists v. split; [assumption|]. split; [now apply Hmin|].
           intros w j Hin. apply (H3 w j). now right.
    + simpl. rewrite IH'. split.
      * intros [<-|(v & H1 & H2 & H3)].
        -- exists v0. split; [now left|]. split; [discriminate|exact Hhead].
        -- exists v. split; [now right|]. split; [discriminate|].
           intros w j [[= <- <-]|Hin] E; [congruence|]. now apply (H3 w j).
      * intros (v & [[= <- <-]|H1] & H2 & H3); [now left|]. right.
        exists v. split; [assumption|]. split; [now apply Hmin|].
        intros w j Hin. apply (H3 w j). now right.
Qed.

(** An index is returned by [np.unique] exactly when no smaller index
    carries the same value. *)
Lemma in_unique_index i :
  In i (Np.unique_index x) <->
  i < length x /\
  forall j, j < length x -> eqb (nth j x NaN) (nth i x NaN) = true -> i <= j.
Proof.
  unfold Np.unique_index, Np.argsort_float, Np.argsort.
  rewrite run_heads_spec.
  - split.
    + intros (v & Hin & _ & Hmin).
      apply (in_sorted_enumerate sort_leb x v i NaN) in Hin as [Hi <-].
      split; [assumption|]. intros j Hj E. apply (Hmin (nth j x NaN) j); [|exact E].
      apply (in_sorted_enumerate sort_leb x _ j NaN). tauto.
    + intros [Hi Hmin]. exists (nth i x NaN). split.
      * apply (in_sorted_enumerate sort_leb x _ i NaN). tauto.
      * split; [discriminate|]. intros w j Hin E.
        apply (in_sorted_enumerate sort_leb x w j NaN) in Hin as [Hj <-].
        now apply Hmin.
  - apply sorted_enumerate; [apply sort_leb_total|apply sort_leb_trans].
  - intros v i' Hin. now apply (in_sorted_enumerate sort_leb x v i' NaN) in Hin.
  - discriminate.
Qed.
End UniqueFacts.

(** ** [drop_duplicates] keeps first occurrences, in array order *)

Lemma in_firstn_nth {A} (l : list A) i p d :
  In p (firstn i l) <-> exists j, j < i /\ j < length l /\ nth j l d = p.
Proof.
  split.
  - intros Hin. apply (In_nth _ _ d) in Hin as (j & Hj & Hp).
    rewrite length_firstn in Hj. rewrite nth_firstn in Hp.
    exists j. destruct (Nat.ltb_spec j i); [|lia].
    repeat split; [lia|lia|exact Hp].
  - intros (j & Hji & Hjl & <-).
    assert (Hn : nth j (firstn i l) d = nth j l d).
    { rewrite nth_firstn. destruct (Nat.ltb_spec j i); [reflexivity|lia]. }
    rewrite <- Hn. apply nth_In. rewrite length_firstn. lia.
Qed.

Lemma existsb_eqb_in i l : existsb (Nat.eqb i) l = true <-> In i l.
Proof.
  rewrite existsb_exists. split.
  - intros (j & Hin & E). apply Nat.eqb_eq in E. now subst.
  - intros Hin. exists i. split; [assumption|apply Nat.eqb_refl].
Qed.

(** The mask [k] of [drop_duplicates] marks the entries without an equal
    entry before them. *)
Lemma unique_mask x i :
  Forall finite x -> i < length x ->
  existsb (Nat.eqb i) (Np.unique_index x)
  = negb (existsb (fun p => eqb p (nth i x NaN)) (firstn i x)).
Proof.
  intros Hfin Hi.
  destruct (existsb (fun p => eqb p (nth i x NaN)) (firstn i x)) eqn:E; simpl.
  - apply existsb_exists in E as (p & Hp & Heq).
    apply (in_firstn_nth x i p NaN) in Hp as (j & Hji & Hjl & <-).
    destruct (existsb (Nat.eqb i) (Np.unique_index x)) eqn:E'; [|reflexivity].
    apply existsb_eqb_in in E'. apply (in_unique_index x Hfin) in E' as [_ Hmin].
    specialize (Hmin j Hjl Heq). lia.
  - apply existsb_eqb_in. apply (in_unique_index x Hfin). split; [assumption|].
    intros j Hj Heq. destruct (Nat.lt_ge_cases j i) as [Hlt|Hge]; [|assumption].
    exfalso.
    assert (Hex : existsb (fun p => eqb p (nth i x NaN)) (firstn i x) = true).
    { apply existsb_exists. exists (nth j x NaN). split; [|assumption].
      apply (in_firstn_nth x i _ NaN). exists j. auto. }
    congruence.
Qed.

Lemma select_first_occurrences pre suf :
  Np.select suf
    (map (fun i => negb (existsb (fun p => eqb p (nth i (pre ++ suf) NaN))
                                 (firstn i (pre ++ suf))))
         (seq (length pre) (length suf)))
  = first_occurrences pre suf.
Proof.
  revert pre. induction suf as [|v t IH]; intros pre; simpl; [reflexivity|].
  rewrite app_nth2 by lia. rewrite Nat.sub_diag. simpl.
  rewrite firstn_app, Nat.sub_diag, firstn_all2 by lia. simpl.
  rewrite app_nil_r.
  specialize (IH (pre ++ [v])).
  rewrite <- app_assoc in IH. simpl in IH.
  rewrite length_app in IH. simpl in IH. rewrite Nat.add_1_r in IH.
  rewrite IH.
  destruct (existsb (fun p => eqb p v) pre); reflexivity.
Qed.

Lemma drop_duplicates_first_occurrences x :
  Forall finite x -> drop_duplicates x = first_occurrences [] x.
Proof.
  intros Hfin. unfold drop_duplicates, Np.mask_of.
  rewrite <- (select_first_occurrences [] x). simpl. f_equal.
  apply map_ext_in. intros i Hi. apply in_seq in Hi.
  apply unique_mask; [assumption|lia].
Qed.

(** ** Properties of the first occurrences *)

Lemma first_occurrences_incl seen x d :
  In d (first_occurrences seen x) -> In d x.
Proof.
  revert seen. induction x as [|v t IH]; intros seen; simpl; [tauto|].
  destruct (existsb _ seen); simpl.
  - intros H. right. eapply IH, H.
  - intros [<-|H]; [now left|]. right. eapply IH, H.
Qed.

Lemma first_occurrences_fresh seen x d s :
  In d (first_occurrences seen x) -> In s seen -> eqb s d = false.
Proof.
  revert seen. induction x as [|v t IH]; intros seen; simpl; [tauto|].
  destruct (existsb (fun p => eqb p v) seen) eqn:E; simpl.
  - intros H Hs. apply (IH (seen ++ [v])); [assumption|].
    apply in_or_app. now left.
  - intros [<-|H] Hs.
    + destruct (eqb s v) eqn:E'; [|reflexivity].
      assert (existsb (fun p => eqb p v) seen = true)
        by (apply existsb_exists; now exists s).
      congruence.
    + apply (IH (seen ++ [v])); [assumption|]. apply in_or_app. now left.
Qed.

(** No two retained values are equal. *)
Lemma first_occurrences_distinct seen x :
  ForallOrdPairs (fun a b => eqb a b = false) (first_occurrences seen x).
Proof.
  revert seen. induction x as [|v t IH]; intros seen; simpl; [constructor|].
  destruct (existsb _ seen); [apply IH|].
  constructor; [|apply IH].
  apply Forall_forall. intros d Hd.
  apply (first_occurrences_fresh (seen ++ [v]) t d v Hd).
  apply in_or_app. right. now left.
Qed.

(** Every value of the column is represented. *)
Lemma first_occurrences_complete seen x v :
  Forall finite x -> In v x ->
  exists d, In d (seen ++ first_occurrences seen x) /\ eqb d v = true.
Proof.
  revert seen. induction x as [|a t IH]; intros seen Hfin Hin; [destruct Hin|].
  apply Forall_cons_iff in Hfin as [Ha Hfin]. simpl.
  assert (Hstep : exists d,
            In d ((seen ++ [a]) ++ first_occurrences (seen ++ [a]) t)
            /\ eqb d v = true).
  { destruct Hin as [<-|Hv].
    - exists a. split; [|now apply eqb_refl_finite].
      apply in_or_app. left. apply in_or_app. right. now left.
    - now apply IH. }
  destruct Hstep as (d & Hd & E).
  destruct (existsb (fun p => eqb p a) seen) eqn:Ex.
  - apply in_app_or in Hd as [Hd|Hd].
    + apply in_app_or in Hd as [Hd|[<-|[]]].
      * exists d. split; [apply in_or_app; now left|assumption].
      * apply existsb_exists in Ex as (s & Hs & Es).
        exists s. split; [apply in_or_app; now left|].
        now apply (eqb_trans _ a).
    + exists d. split; [apply in_or_app; now right|assumption].
  - exists d. split; [|assumption].
    apply in_app_or in Hd as [Hd|Hd].
    + apply in_app_or in Hd as [Hd|[<-|[]]].
      * apply in_or_app. now left.
      * apply in_or_app. right. now left.
    + apply in_or_app. right. now right.
Qed.

Lemma first_occurrences_length seen x :
  length (first_occurrences seen x) <= length x.
Proof.
  revert seen. induction x as [|v t IH]; intros seen; simpl; [lia|].
  destruct (existsb _ seen); simpl; specialize (IH (seen ++ [v])); lia.
Qed.

Lemma first_occurrences_nonempty x v t :
  x = v :: t -> first_occurrences [] x = v :: first_occurrences [v] t.
Proof. intros ->. reflexivity. Qed.

Lemma first_occurrences_finite seen x :
  Forall finite x -> Forall finite (first_occurrences seen x).
Proof.
  intros Hfin. apply Forall_forall. intros d Hd.
  rewrite Forall_forall in Hfin. apply Hfin.
  eapply first_occurrences_incl, Hd.
Qed.

(** ** Ranks of a column of distinct values *)

Lemma ForallOrdPairs_nth {A} (R : A -> A -> Prop) (l : list A) d :
  ForallOrdPairs R l ->
  forall i j, i < j -> j < length l -> R (nth i l d) (nth j l d).
Proof.
  induction 1 as [|a l Ha Hl IH]; intros i j Hij Hj; simpl in *; [lia|].
  destruct j as [|j]; [lia|]. destruct i as [|i].
  - rewrite Forall_forall in Ha. apply Ha, nth_In. lia.
  - apply IH; lia.
Qed.

Lemma StronglySorted_map {A B} (R : A -> A -> Prop) (R' : B -> B -> Prop)
      (f : A -> B) (l : list A) :
  (forall a b, In a l -> In b l -> R a b -> R' (f a) (f b)) ->
  StronglySorted R l -> StronglySorted R' (map f l).
Proof.
  intros Hf Hs. induction Hs as [|a l Hs IH Ha]; simpl; constructor.
  - apply IH. intros; apply Hf; simpl; auto.
  - rewrite Forall_forall in *. intros b Hb.
    apply in_map_iff in Hb as (b' & <- & Hb').
    apply Hf; simpl; auto.
Qed.

Lemma fold_left_max_ge t a :
  a <= fold_left Nat.max t a /\ forall b, In b t -> b <= fold_left Nat.max t a.
Proof.
  revert a. induction t as [|c t IH]; intros a; simpl; [split; [lia|tauto]|].
  destruct (IH (Nat.max a c)) as [H1 H2]. split; [lia|].
  intros b [<-|Hb]; [lia|now apply H2].
Qed.

Lemma fold_left_max_in t a : In (fold_left Nat.max t a) (a :: t).
Proof.
  revert a. induction t as [|c t IH]; intros a; simpl; [now left|].
  destruct (IH (Nat.max a c)) as [H|H]; [|now right; right].
  destruct (Nat.max_spec a c) as [[_ E]|[_ E]]; rewrite E in *.
  - right. now left.
  - now left.
Qed.

Lemma max_perm_seq r k : Permutation r (seq 0 (S k)) -> Np.max r = Ok k.
Proof.
  intros Hp. destruct r as [|a t].
  - apply Permutation_nil in Hp. discriminate.
  - simpl. f_equal. apply Nat.le_antisymm.
    + pose proof (fold_left_max_in t a) as Hin.
      apply (Permutation_in _ Hp) in Hin. apply in_seq in Hin. lia.
    + assert (Hk : In k (a :: t)).
      { apply (Permutation_in _ (Permutation_sym Hp)). apply in_seq. lia. }
      destruct (fold_left_max_ge t a) as [H1 H2].
      destruct Hk as [<-|Hk]; [assumption|now apply H2].
Qed.

Section DistinctColumn.
Variable u : list float64.
Hypothesis u_finite : Forall finite u.
Hypothesis u_distinct : ForallOrdPairs (fun a b => eqb a b = false) u.

Let m := length u.
Let p := Np.argsort_float u.

Lemma argsort_float_perm : Permutation p (seq 0 m).
Proof. apply argsort_perm. Qed.

Lemma rank_of_length : length (rank_of u) = m.
Proof.
  unfold rank_of, Np.argsort_int. rewrite argsort_length.
  apply (argsort_length sort_leb).
Qed.

Lemma rank_of_perm : Permutation (rank_of u) (seq 0 m).
Proof. apply argsort_int_perm, argsort_float_perm. Qed.

(** The sorted distinct values are strictly increasing. *)
Lemma sorted_values_increasing :
  StronglySorted (fun a b => ltb a b = true) (Np.take u p).
Proof.
  unfold Np.take, p, Np.argsort_float. rewrite take_argsort.
  apply (StronglySorted_map (lexlt sort_leb)).
  2: { apply sorted_enumerate; [apply sort_leb_total|apply sort_leb_trans]. }
  intros [v i] [w j] Hv Hw [Hle Hidx]. simpl in *.
  apply (in_sorted_enumerate sort_leb u v i NaN) in Hv as [Hi <-].
  apply (in_sorted_enumerate sort_leb u w j NaN) in Hw as [Hj <-].
  assert (Fi : finite (nth i u NaN)) by now apply nth_finite.
  assert (Fj : finite (nth j u NaN)) by now apply nth_finite.
  rewrite sort_leb_finite in * by assumption.
  rewrite ltb_not_leb by assumption.
  destruct (leb (nth j u NaN) (nth i u NaN)) eqn:E; [|reflexivity].
  exfalso. specialize (Hidx eq_refl).
  pose proof (ForallOrdPairs_nth _ u NaN u_distinct i j Hidx Hj) as Hd.
  simpl in Hd. unfold eqb in Hd. rewrite Hle, E in Hd. discriminate.
Qed.

(** The value at position [i] is the [rank[i]]-th smallest. *)
Lemma rank_of_spec i :
  i < m ->
  nth i (rank_of u) 0 < m /\
  nth (nth i (rank_of u) 0) (Np.take u p) NaN = nth i u NaN.
Proof.
  intros Hi.
  destruct (argsort_int_inverse_l p m argsort_float_perm i Hi) as [Hlt Heq].
  change (Np.argsort_int p) with (rank_of u) in Hlt, Heq.
  split; [assumption|].
  unfold Np.take.
  assert (Hlen : length p = m) by apply (argsort_length sort_leb).
  rewrite (nth_indep _ NaN ((fun i => nth i u NaN) 0))
    by (rewrite length_map; lia).
  rewrite (map_nth (fun i => nth i u NaN)). now rewrite Heq.
Qed.

(** Read in sorted order, the ranks are 0, 1, ..., m-1. *)
Lemma ranks_in_sorted_order :
  map (fun i => nth i (rank_of u) 0) p = seq 0 m.
Proof.
  assert (Hlen : length p = m) by apply (argsort_length sort_leb).
  apply (nth_ext _ _ 0 0).
  - now rewrite length_map, length_seq.
  - intros t Ht. rewrite length_map, Hlen in Ht.
    rewrite seq_nth by assumption. simpl.
    rewrite (nth_indep _ 0 ((fun i => nth i (rank_of u) 0) 0))
      by (rewrite length_map; lia).
    rewrite (map_nth (fun i => nth i (rank_of u) 0)).
    change (rank_of u) with (Np.argsort_int p).
    apply (argsort_int_inverse_r p m argsort_float_perm t Ht).
Qed.

Lemma take_scaled_ranks (f : nat -> float64) :
  Np.take (map f (rank_of u)) p = map f (seq 0 m).
Proof.
  rewrite <- ranks_in_sorted_order, map_map. unfold Np.take.
  apply map_ext_in. intros i Hi.
  apply (Permutation_in _ argsort_float_perm) in Hi. apply in_seq in Hi.
  rewrite (nth_indep _ NaN (f 0)) by (rewrite length_map, rank_of_length; lia).
  apply map_nth.
Qed.

Lemma max_rank : 1 <= m -> Np.max (rank_of u) = Ok (m - 1).
Proof.
  intros Hm. apply max_perm_seq.
  replace (S (m - 1)) with m by lia. apply rank_of_perm.
Qed.

(** What [interp1d] stores for the column: the sorted values against the
    scaled ranks 0 .. m-1. *)
Lemma interp1d_of_distinct minval (f : nat -> float64) :
  Scipy.interp1d_init minval u (map f (rank_of u)) =
  if m <? minval then Raise ValueError
  else Ok (Scipy.mk_interp1d (Np.take u p) (map f (seq 0 m))).
Proof.
  unfold Scipy.interp1d_init.
  rewrite length_map, rank_of_length. fold m. rewrite Nat.eqb_refl. simpl.
  destruct (m <? minval); [reflexivity|].
  fold p. now rewrite take_scaled_ranks.
Qed.
End DistinctColumn.

(** ** What [_fit] returns *)

Lemma scaled_rank_char eps x :
  Forall finite x -> x <> [] ->
  let u := first_occurrences [] x in
  scaled_rank eps x
  = Ok (u, map (scale_rank eps (length u - 1)) (rank_of u)).
Proof.
  intros Hfin Hne u. unfold scaled_rank.
  rewrite drop_duplicates_first_occurrences by assumption. fold u.
  assert (Hm : 1 <= length u).
  { destruct x as [|v t]; [congruence|]. unfold u. simpl. lia. }
  rewrite (max_rank u) by assumption. reflexivity.
Qed.

Lemma fit_char minval self x :
  Forall finite x -> x <> [] ->
  _fit minval self x =
  if length (first_occurrences [] x) <? minval then Raise ValueError
  else Ok (fitted_mapping (epsilon self) x).
Proof.
  intros Hfin Hne. unfold _fit.
  rewrite scaled_rank_char by assumption. simpl.
  rewrite interp1d_of_distinct. reflexivity.
Qed.

(** ** The scaled ranks, for a margin inside (0, 1) and at least two values *)

Lemma clip_fin a lo hi : Np.clip (Fin a) (Fin lo) (Fin hi) = Fin (clip_q a lo hi).
Proof.
  unfold Np.clip, clip_q, maximum, minimum, ltb.
  destruct (Qltb a lo); destruct (Qltb hi _); reflexivity.
Qed.

Lemma unclipped_rank_fin eps M r :
  Qeq_bool (factor_q eps M) 0 = false ->
  unclipped_rank eps M r = Fin (raw_q eps M r).
Proof.
  intros H. unfold unclipped_rank, factor_of, bound_of, of_nat. simpl.
  unfold factor_q, bound_q in H. rewrite H. reflexivity.
Qed.

Lemma clip_q_range a lo hi : (lo <= hi)%Q -> (lo <= clip_q a lo hi <= hi)%Q.
Proof.
  intros H. unfold clip_q.
  destruct (Qltb a lo) eqn:E1.
  - destruct (Qltb hi lo) eqn:E2.
    + apply Qltb_lt in E2. lra.
    + lra.
  - apply Qltb_ge in E1. destruct (Qltb hi a) eqn:E2.
    + lra.
    + apply Qltb_ge in E2. lra.
Qed.

Lemma clip_q_mono a a' lo hi :
  (lo <= hi)%Q -> (a <= a')%Q -> (clip_q a lo hi <= clip_q a' lo hi)%Q.
Proof.
  intros H Ha. unfold clip_q.
  destruct (Qltb a lo) eqn:E1; destruct (Qltb a' lo) eqn:E2;
    rewrite ?Qltb_lt, ?Qltb_ge in *;
    repeat match goal with
           | |- context [Qltb ?p ?q] =>
               let E := fresh "E" in
               destruct (Qltb p q) eqn:E; rewrite ?Qltb_lt, ?Qltb_ge in E
           end; lra.
Qed.

Lemma clip_q_inside a lo hi :
  (lo <= a)%Q -> (a <= hi)%Q -> clip_q a lo hi = a.
Proof.
  intros H1 H2. unfold clip_q.
  destruct (Qltb a lo) eqn:E1; [apply Qltb_lt in E1; lra|].
  destruct (Qltb hi a) eqn:E2; [apply Qltb_lt in E2; lra|reflexivity].
Qed.

Lemma clip_q_above a lo hi :
  (lo <= hi)%Q -> (hi <= a)%Q -> (clip_q a lo hi == hi)%Q.
Proof.
  intros H1 H2. unfold clip_q.
  destruct (Qltb a lo) eqn:E1; [apply Qltb_lt in E1|apply Qltb_ge in E1].
  - destruct (Qltb hi lo) eqn:E2; [reflexivity|]. apply Qltb_ge in E2. lra.
  - destruct (Qltb hi a) eqn:E2; [reflexivity|]. apply Qltb_ge in E2. lra.
Qed.

Section ScaleFacts.
Variable eps : Q.
Variable M : nat.
Hypothesis eps_range : (0 < eps < 1)%Q.
Hypothesis M_pos : 1 <= M.

Let b := bound_q eps.
Let f := factor_q eps M.

Lemma bound_range : (0 < b < 1)%Q.
Proof. unfold b, bound_q. lra. Qed.

Lemma inject_nat_pos : (1 <= inject_Z (Z.of_nat M))%Q.
Proof.
  change 1%Q with (inject_Z 1). rewrite <- Zle_Qle. lia.
Qed.

Lemma factor_pos : (0 < f)%Q.
Proof.
  unfold f, factor_q. fold b. pose proof bound_range. pose proof inject_nat_pos.
  apply Qmult_lt_0_compat; [|lra].
  apply Qlt_shift_div_l; lra.
Qed.

Lemma factor_nonzero : Qeq_bool (factor_q eps M) 0 = false.
Proof.
  apply Qeq_bool_false. pose proof factor_pos. unfold f in *. lra.
Qed.

Lemma scale_rank_fin r : scale_rank eps M r = Fin (quantile_q eps M r).
Proof.
  unfold scale_rank. rewrite (unclipped_rank_fin _ _ _ factor_nonzero).
  unfold bound_of. simpl. apply clip_fin.
Qed.

Lemma raw_q_mono r r' : r <= r' -> (raw_q eps M r <= raw_q eps M r')%Q.
Proof.
  intros H. unfold raw_q. fold f.
  assert (inject_Z (Z.of_nat r) <= inject_Z (Z.of_nat r'))%Q
    by (rewrite <- Zle_Qle; lia).
  assert (inject_Z (Z.of_nat r) / f <= inject_Z (Z.of_nat r') / f)%Q.
  { apply Qmult_le_compat_r; [assumption|].
    apply Qinv_le_0_compat, Qlt_le_weak, factor_pos. }
  lra.
Qed.

Lemma raw_q_strict r r' : r < r' -> (raw_q eps M r < raw_q eps M r')%Q.
Proof.
  intros H. unfold raw_q. fold f.
  assert (inject_Z (Z.of_nat r) < inject_Z (Z.of_nat r'))%Q
    by (rewrite <- Zlt_Qlt; lia).
  assert (inject_Z (Z.of_nat r) / f < inject_Z (Z.of_nat r') / f)%Q.
  { apply Qmult_lt_compat_r; [|assumption].
    apply Qinv_lt_0_compat, factor_pos. }
  lra.
Qed.

Lemma raw_q_zero : (raw_q eps M 0 == - b)%Q.
Proof.
  unfold raw_q. fold f b. simpl. unfold Qdiv.
  change (inject_Z 0) with 0%Q. rewrite Qmult_0_l. lra.
Qed.

Lemma raw_q_max : (raw_q eps M M == 2 / b - b)%Q.
Proof.
  unfold raw_q, factor_q. fold b.
  pose proof bound_range. pose proof inject_nat_pos.
  field. split; lra.
Qed.

Lemma inv_bound_gt : (1 < / b)%Q.
Proof.
  pose proof bound_range.
  setoid_replace (/ b)%Q with (1 / b)%Q by (field; lra).
  apply Qlt_shift_div_l; lra.
Qed.

(** Before the clip, the largest rank lands above the bound. *)
Lemma raw_q_max_above : (b < raw_q eps M M)%Q.
Proof.
  rewrite raw_q_max. pose proof bound_range. pose proof inv_bound_gt.
  unfold Qdiv, Qminus. lra.
Qed.

Lemma raw_q_lower r : (- b <= raw_q eps M r)%Q.
Proof.
  rewrite <- raw_q_zero. apply raw_q_mono. lia.
Qed.

Lemma quantile_q_range r : (- b <= quantile_q eps M r <= b)%Q.
Proof.
  unfold quantile_q. fold b. apply clip_q_range. pose proof bound_range. lra.
Qed.

Lemma quantile_q_mono r r' :
  r <= r' -> (quantile_q eps M r <= quantile_q eps M r')%Q.
Proof.
  intros H. unfold quantile_q. apply clip_q_mono.
  - pose proof bound_range. fold b. lra.
  - now apply raw_q_mono.
Qed.

Lemma quantile_q_zero : (quantile_q eps M 0 == - b)%Q.
Proof.
  unfold quantile_q. fold b. pose proof bound_range.
  pose proof raw_q_zero.
  rewrite clip_q_inside; lra.
Qed.

Lemma quantile_q_max : (quantile_q eps M M == b)%Q.
Proof.
  unfold quantile_q. fold b. pose proof bound_range.
  apply clip_q_above; [lra|]. apply Qlt_le_weak, raw_q_max_above.
Qed.

End ScaleFacts.

(** ** Evaluation of a linear interpolator *)

Lemma map_fin_to_q l : Forall finite l -> map Fin (map to_q l) = l.
Proof.
  induction 1 as [|a l Ha Hl IH]; simpl; [reflexivity|].
  rewrite IH. destruct a; try discriminate. reflexivity.
Qed.

Lemma StronglySorted_nth {A} (R : A -> A -> Prop) (l : list A) d :
  StronglySorted R l ->
  forall i j, i < j -> j < length l -> R (nth i l d) (nth j l d).
Proof.
  induction 1 as [|a l Hs IH Ha]; intros i j Hij Hj; simpl in *; [lia|].
  destruct j as [|j]; [lia|]. destruct i as [|i].
  - rewrite Forall_forall in Ha. apply Ha, nth_In. lia.
  - apply IH; lia.
Qed.

Lemma getitem_fin l i :
  i < length l -> Np.getitem (map Fin l) (Z.of_nat i) = Fin (nth i l 0%Q).
Proof.
  intros Hi. unfold Np.getitem.
  destruct (Z.of_nat i <? 0)%Z eqn:E; [apply Z.ltb_lt in E; lia|].
  rewrite E, Nat2Z.id.
  change NaN with ((fun _ => NaN) tt).
  rewrite (nth_indep _ _ (Fin 0)) by (rewrite length_map; lia).
  apply (map_nth Fin).
Qed.

Lemma searchsorted_spec l v k :
  k <= length l ->
  (forall i, i < k -> (nth i l 0 < v)%Q) ->
  (k < length l -> (v <= nth k l 0)%Q) ->
  Np.searchsorted (map Fin l) (Fin v) = k.
Proof.
  revert k. induction l as [|a l IH]; intros k Hk Hlt Hge; simpl in *.
  - lia.
  - destruct k as [|k].
    + assert (E : Qltb a v = false) by (apply Qltb_ge, Hge; lia).
      now rewrite E.
    + assert (E : Qltb a v = true) by (apply Qltb_lt, (Hlt 0); lia).
      rewrite E. f_equal. apply IH.
      * lia.
      * intros i Hi. apply (Hlt (S i)). lia.
      * intros Hk'. apply Hge. lia.
Qed.

(** Once the segment is located, the value is the one of its line. *)
Lemma call_linear_located (qx qy : list Q) k v :
  length qy = length qx ->
  1 <= k < length qx ->
  (nth (k - 1) qx 0 < nth k qx 0)%Q ->
  Np.clip_index (Z.of_nat (Np.searchsorted (map Fin qx) (Fin v))) 1
                (Z.of_nat (length qx) - 1) = Z.of_nat k ->
  Scipy.call_linear (Scipy.mk_interp1d (map Fin qx) (map Fin qy)) (Fin v)
  = Fin (segment_q qx qy k v).
Proof.
  intros Hlen Hk Hx Hidx. unfold Scipy.call_linear. simpl.
  rewrite length_map, Hidx.
  replace (Z.of_nat k - 1)%Z with (Z.of_nat (k - 1)) by lia.
  rewrite !getitem_fin by lia.
  unfold sub, neg, add, div.
  assert (E : Qeq_bool (nth k qx 0 + - nth (k - 1) qx 0)%Q 0 = false).
  { apply Qeq_bool_false. lra. }
  rewrite E. reflexivity.
Qed.

Section LinearFacts.
Variable qx qy : list Q.
Hypothesis qx_sorted : StronglySorted Qlt qx.
Hypothesis qy_length : length qy = length qx.
Hypothesis two_points : 2 <= length qx.

Let f := Scipy.mk_interp1d (map Fin qx) (map Fin qy).
Let m := length qx.

Lemma call_linear_segment k v :
  1 <= k < m ->
  Np.clip_index (Z.of_nat (Np.searchsorted (map Fin qx) (Fin v))) 1
                (Z.of_nat m - 1) = Z.of_nat k ->
  Scipy.call_linear f (Fin v) = Fin (segment_q qx qy k v).
Proof.
  intros Hk Hidx. apply call_linear_located; try assumption.
  apply StronglySorted_nth; [assumption| |]; unfold m in *; lia.
Qed.

(** Below the first control point the first segment is extended. *)
Lemma call_linear_below v :
  (v <= nth 0 qx 0)%Q ->
  Scipy.call_linear f (Fin v) = Fin (segment_q qx qy 1 v).
Proof.
  intros Hv. apply call_linear_segment; [unfold m; lia|].
  rewrite (searchsorted_spec qx v 0); [|lia|lia|intros _; exact Hv].
  unfold Np.clip_index, m. lia.
Qed.

(** At a control point the interpolator returns its ordinate. *)
Lemma call_linear_at k :
  k < m ->
  exists q : Q, Scipy.call_linear f (Fin (nth k qx 0%Q)) = Fin q
                /\ (q == nth k qy 0)%Q.
Proof.
  intros Hk.
  assert (Hs : Np.searchsorted (map Fin qx) (Fin (nth k qx 0%Q)) = k).
  { apply searchsorted_spec; [unfold m in *; lia| |intros _; apply Qle_refl].
    intros i Hi. apply StronglySorted_nth; [assumption|lia|exact Hk]. }
  destruct k as [|k].
  - exists (segment_q qx qy 1 (nth 0 qx 0%Q)). split.
    + apply call_linear_below, Qle_refl.
    + unfold segment_q. simpl.
      assert (Hx : (nth 0 qx 0 < nth 1 qx 0)%Q).
      { apply StronglySorted_nth; [assumption|lia|unfold m in *; lia]. }
      field. lra.
  - exists (segment_q qx qy (S k) (nth (S k) qx 0%Q)). split.
    + apply call_linear_segment; [lia|]. rewrite Hs.
      unfold Np.clip_index. lia.
    + unfold segment_q. replace (S k - 1) with k by lia.
      assert (Hx : (nth k qx 0 < nth (S k) qx 0)%Q).
      { apply StronglySorted_nth; [assumption|lia|exact Hk]. }
      field. lra.
Qed.
End LinearFacts.

(** * The properties of the specification *)

(** ** Frame: applying a fitted scaler does not change it *)

(** C10. Every call of [transform] or [inverse_transform], successful or
    not, returns the instance it was given: the stored interpolators
    [interp_func_], with their control points, are the ones [fit] left.
    [_inverse_transform] builds its inverse interpolator with a fresh
    [interp1d_init] from the stored control points and stores nothing. *)
Theorem apply_leaves_fitted_state (erf_fin erfinv_fin : Q -> Q)
        (cpu_count minval : nat) (X : list (list float64))
        (self : GuassRankScaler) :
  snd (transform erfinv_fin cpu_count X self) = self /\
  snd (inverse_transform erf_fin cpu_count minval X self) = self /\
  interp_func_ (snd (transform erfinv_fin cpu_count X self))
  = interp_func_ self /\
  interp_func_ (snd (inverse_transform erf_fin cpu_count minval X self))
  = interp_func_ self.
Proof.
  unfold transform, inverse_transform.
  rewrite !per_column_state. repeat split.
Qed.

(** ** Validation of non-finite input *)

(** C8, as amended.  An input with a nan or an infinity makes [fit] raise the
    validation error and keep the instance as it was; on a fitted instance
    [transform] and [inverse_transform] do the same, before any mapping is
    applied.  On an instance that was never fitted the two raise the
    not-fitted error instead, because [check_is_fitted] runs before
    [check_array]; the instance is unchanged there too. *)
Theorem nonfinite_input_rejected (erf_fin erfinv_fin : Q -> Q)
        (cpu_count minval : nat) (X : list (list float64))
        (self : GuassRankScaler) :
  has_nonfinite X ->
  fit cpu_count minval X self = (Raise ValueError, self) /\
  match interp_func_ self with
  | Some _ =>
      transform erfinv_fin cpu_count X self = (Raise ValueError, self) /\
      inverse_transform erf_fin cpu_count minval X self
      = (Raise ValueError, self)
  | None =>
      transform erfinv_fin cpu_count X self = (Raise NotFittedError, self) /\
      inverse_transform erf_fin cpu_count minval X self
      = (Raise NotFittedError, self)
  end.
Proof.
  intros Hbad. pose proof (check_array_nonfinite X Hbad) as Hc.
  split.
  - rewrite fit_unfold, Hc. reflexivity.
  - unfold transform, inverse_transform. rewrite !per_column_unfold.
    destruct (interp_func_ self); rewrite ?Hc; split; reflexivity.
Qed.

(** ** Independence from the number of workers *)

(** C9. With [n_jobs = N] for any worker count [N >= 1], [fit] stores the
    same interpolators, and [fit], [transform] and [inverse_transform]
    return the same outcome, as with [n_jobs = 1]; the task runner hands the
    per-column results back in column order whatever [N] is. *)
Theorem parallelism_degree_irrelevant (erf_fin erfinv_fin : Q -> Q)
        (cpu_count minval : nat) (X : list (list float64))
        (self : GuassRankScaler) (N : Z) :
  (1 <= N)%Z ->
  let s1 := with_n_jobs self (Some 1%Z) in
  let sN := with_n_jobs self (Some N) in
  fst (fit cpu_count minval X sN) = fst (fit cpu_count minval X s1) /\
  interp_func_ (snd (fit cpu_count minval X sN))
  = interp_func_ (snd (fit cpu_count minval X s1)) /\
  fst (transform erfinv_fin cpu_count X sN)
  = fst (transform erfinv_fin cpu_count X s1) /\
  fst (inverse_transform erf_fin cpu_count minval X sN)
  = fst (inverse_transform erf_fin cpu_count minval X s1) /\
  forall tasks : list (@Joblib.task (list float64)),
    Joblib.Parallel cpu_count (Some N) tasks
    = sequence (map (fun t => t tt) tasks).
Proof.
  intros HN s1 sN.
  assert (H1 : Joblib.effective_n_jobs cpu_count (n_jobs s1) = Ok 1)
    by reflexivity.
  assert (HNw : Joblib.effective_n_jobs cpu_count (n_jobs sN) = Ok (Z.to_nat N))
    by (apply effective_n_jobs_some; exact HN).
  rewrite (fit_in_order _ _ X sN _ HNw), (fit_in_order _ _ X s1 _ H1).
  unfold transform, inverse_transform.
  rewrite !(per_column_in_order _ _ X sN _ HNw).
  rewrite !(per_column_in_order _ _ X s1 _ H1).
  change (_fit minval sN) with (_fit minval s1).
  change (interp_func_ sN) with (interp_func_ self).
  change (interp_func_ s1) with (interp_func_ self).
  repeat split.
  - destruct (Sklearn.check_array X); [|reflexivity].
    destruct (sequence _); reflexivity.
  - destruct (Sklearn.check_array X); [|reflexivity].
    destruct (sequence _); reflexivity.
  - destruct (interp_func_ self); [|reflexivity].
    destruct (Sklearn.check_array X); [|reflexivity].
    destruct (sequence _); reflexivity.
  - destruct (interp_func_ self); [|reflexivity].
    destruct (Sklearn.check_array X); [|reflexivity].
    destruct (sequence _); reflexivity.
  - intros tasks. apply (Parallel_in_order cpu_count _ (Z.to_nat N)).
    apply effective_n_jobs_some. exact HN.
Qed.

Lemma nonfinite_input_rejected_witness :
  has_nonfinite [[NaN]] /\
  fit 4 2 [[NaN]] (__init__ None None None)
  = (Raise ValueError, __init__ None None None).
Proof.
  assert (H : has_nonfinite [[NaN]]).
  { exists [NaN], NaN. simpl. auto. }
  split; [exact H|].
  exact (proj1 (nonfinite_input_rejected example_erf example_erf 4 2 _ _ H)).
Defined.

(** C8 as stated fails on an instance that was never fitted: a nan input to
    [transform] raises the not-fitted error, not the validation error. *)
Lemma unfitted_transform_not_validation_error :
  has_nonfinite [[NaN]] /\
  fst (transform example_erf 4 [[NaN]] (__init__ None None None))
  = Raise NotFittedError /\
  fst (transform example_erf 4 [[NaN]] (__init__ None None None))
  <> Raise ValueError.
Proof.
  split; [exists [NaN], NaN; simpl; auto|].
  split; [reflexivity|discriminate].
Qed.

Lemma parallelism_degree_irrelevant_witness :
  (1 <= 4)%Z /\
  fst (fit 8 2 [[F 1; F 5]; [F 2; F 7]]
           (with_n_jobs (__init__ None None None) (Some 4%Z)))
  = fst (fit 8 2 [[F 1; F 5]; [F 2; F 7]]
             (with_n_jobs (__init__ None None None) (Some 1%Z))).
Proof.
  assert (H : (1 <= 4)%Z) by discriminate.
  split; [exact H|].
  exact (proj1 (parallelism_degree_irrelevant example_erf example_erf 8 2
                  [[F 1; F 5]; [F 2; F 7]] (__init__ None None None) 4 H)).
Defined.

(** ** Column count at transform time *)

Lemma interp1d_init_ok minval xs ys f :
  Scipy.interp1d_init minval xs ys = Ok f ->
  length (Scipy.x f) = length xs /\ length (Scipy.y f) = length xs /\
  minval <= length xs.
Proof.
  unfold Scipy.interp1d_init.
  destruct (length xs =? length ys) eqn:E; simpl; [|discriminate].
  destruct (length xs <? minval) eqn:E'; [discriminate|].
  intros [= <-]. simpl. unfold Np.take.
  rewrite !length_map. unfold Np.argsort_float. rewrite argsort_length.
  apply Nat.ltb_ge in E'. auto.
Qed.

Lemma interp1d_init_succeeds minval xs ys :
  length xs = length ys -> minval <= length xs ->
  exists f, Scipy.interp1d_init minval xs ys = Ok f.
Proof.
  intros Hlen Hmin. unfold Scipy.interp1d_init.
  rewrite Hlen, Nat.eqb_refl. simpl.
  assert (E : (length ys <? minval) = false) by (apply Nat.ltb_ge; lia).
  rewrite <- Hlen in E |- *. rewrite E. eauto.
Qed.

Lemma fit_shape minval self x f :
  _fit minval self x = Ok f -> invertible_shape minval f.
Proof.
  unfold _fit. destruct (scaled_rank (epsilon self) x) as [xs|e]; simpl;
    [|discriminate].
  intros H. apply interp1d_init_ok in H as (H1 & H2 & H3).
  unfold invertible_shape. lia.
Qed.

Lemma transpose_length n rows : length (Np.transpose n rows) = n.
Proof. unfold Np.transpose. now rewrite length_map, length_seq. Qed.

Lemma transpose_shape n cols :
  has_shape n (length cols) (Np.transpose n cols).
Proof.
  split; [apply transpose_length|].
  apply Forall_forall. intros row Hrow. unfold Np.transpose in Hrow.
  apply in_map_iff in Hrow as (j & <- & _). apply length_map.
Qed.

Lemma columns_length X : length (columns X) = Sklearn.n_features X.
Proof.
  unfold columns. rewrite length_combine, length_seq, transpose_length.
  apply Nat.min_id.
Qed.

Lemma in_columns X i col : In (i, col) (columns X) -> i < Sklearn.n_features X.
Proof.
  unfold columns. intros H. apply in_combine_l in H. apply in_seq in H. lia.
Qed.

Lemma columns_has X i :
  i < Sklearn.n_features X -> exists col, In (i, col) (columns X).
Proof.
  intros Hi. exists (nth i (Np.transpose (Sklearn.n_features X) X) []).
  unfold columns.
  assert (H : nth i (combine (seq 0 (Sklearn.n_features X))
                             (Np.transpose (Sklearn.n_features X) X)) (0, [])
              = (i, nth i (Np.transpose (Sklearn.n_features X) X) [])).
  { rewrite combine_nth by (now rewrite length_seq, transpose_length).
    now rewrite seq_nth. }
  rewrite <- H. apply nth_In.
  rewrite length_combine, length_seq, transpose_length. lia.
Qed.

Lemma sequence_some_ok {A B} (f : A -> result B) l :
  (forall a, In a l -> exists b, f a = Ok b) ->
  exists bs, sequence (map f l) = Ok bs /\ length bs = length l.
Proof.
  induction l as [|a l IH]; intros H; simpl.
  - exists []. auto.
  - destruct (H a (or_introl eq_refl)) as [b ->].
    destruct IH as (bs & -> & Hlen); [intros; apply H; now right|].
    exists (b :: bs). simpl. auto.
Qed.

(** What a successful [fit] leaves in the instance. *)
Lemma fit_ok_state cpu_count minval X0 s0 s :
  fit cpu_count minval X0 s0 = (Ok tt, s) ->
  exists fs w,
    interp_func_ s = Some fs /\ n_jobs s = n_jobs s0 /\
    epsilon s = epsilon s0 /\
    Joblib.effective_n_jobs cpu_count (n_jobs s0) = Ok w /\
    Sklearn.check_array X0 = Ok X0 /\
    Forall2 (fun col f => _fit minval s0 col = Ok f)
            (Np.transpose (Sklearn.n_features X0) X0) fs.
Proof.
  rewrite fit_unfold.
  destruct (Sklearn.check_array X0) as [X'|e] eqn:Hc; [|discriminate].
  pose proof (check_array_ok _ _ Hc) as ->.
  destruct (Joblib.effective_n_jobs cpu_count (n_jobs s0)) as [w|e] eqn:Hw.
  - rewrite (Parallel_in_order cpu_count _ w _ Hw), map_map.
    destruct (sequence _) as [fs|e] eqn:Hs; [|discriminate].
    intros [= <-]. exists fs, w. repeat split.
    apply sequence_ok_inv in Hs. exact Hs.
  - unfold Joblib.Parallel. rewrite Hw. simpl. discriminate.
Qed.

Lemma interp_func_at_out fs i : length fs <= i -> interp_func_at fs i = Raise IndexError.
Proof.
  intros H. unfold interp_func_at.
  now rewrite (proj2 (nth_error_None fs i) H).
Qed.

Lemma interp_func_at_in fs i :
  i < length fs -> exists f, interp_func_at fs i = Ok f /\ In f fs.
Proof.
  intros H. unfold interp_func_at.
  destruct (nth_error fs i) as [f|] eqn:E.
  - exists f. split; [reflexivity|]. eapply nth_error_In, E.
  - apply nth_error_None in E. lia.
Qed.

Lemma transform_task erfinv_fin fs i col :
  (length fs <= i -> _transform erfinv_fin fs i col = Raise IndexError) /\
  (i < length fs -> exists b, _transform erfinv_fin fs i col = Ok b).
Proof.
  unfold _transform. split; intros H.
  - now rewrite interp_func_at_out.
  - destruct (interp_func_at_in fs i H) as (f & -> & _). simpl. eauto.
Qed.

Lemma inverse_transform_task erf_fin minval fs i col :
  Forall (invertible_shape minval) fs ->
  (length fs <= i ->
   _inverse_transform erf_fin minval fs i col = Raise IndexError) /\
  (i < length fs ->
   exists b, _inverse_transform erf_fin minval fs i col = Ok b).
Proof.
  intros Hinv. unfold _inverse_transform. split; intros H.
  - now rewrite interp_func_at_out.
  - destruct (interp_func_at_in fs i H) as (f & -> & Hf). simpl.
    rewrite Forall_forall in Hinv. destruct (Hinv f Hf) as [Hlen Hmin].
    destruct (interp1d_init_succeeds minval (Scipy.y f) (Scipy.x f))
      as [g ->]; [lia|lia|].
    simpl. eauto.
Qed.

(** The outcome of a column-wise method, by the number of input columns. *)
Lemma per_column_outcome cpu_count task X s fs w :
  interp_func_ s = Some fs ->
  Joblib.effective_n_jobs cpu_count (n_jobs s) = Ok w ->
  Sklearn.check_array X = Ok X ->
  (forall i col,
      (length fs <= i -> task fs i col = Raise IndexError) /\
      (i < length fs -> exists b, task fs i col = Ok b)) ->
  (length fs < Sklearn.n_features X ->
   per_column cpu_count task X s = (Raise IndexError, s)) /\
  (Sklearn.n_features X <= length fs ->
   exists R, per_column cpu_count task X s = (Ok R, s)
             /\ has_shape (length X) (Sklearn.n_features X) R).
Proof.
  intros Hfs Hw Hc Htask.
  rewrite (per_column_in_order cpu_count task X s w Hw), Hfs, Hc.
  split; intros Hcount.
  - rewrite (sequence_raise _ IndexError); [reflexivity| |].
    + intros [i col] _. simpl.
      destruct (Nat.le_gt_cases (length fs) i) as [Hi|Hi].
      * left. now apply Htask.
      * right. now apply Htask.
    + destruct (columns_has X (length fs) Hcount) as [col Hin].
      exists (length fs, col). split; [assumption|]. simpl.
      now apply Htask.
  - destruct (sequence_some_ok (fun ix => task fs (fst ix) (snd ix)) (columns X))
      as (cols & -> & Hlen).
    + intros [i col] Hin. simpl. apply Htask.
      apply in_columns in Hin. lia.
    + exists (Np.transpose (length X) cols). split; [reflexivity|].
      rewrite <- (columns_length X), <- Hlen. apply transpose_shape.
Qed.

(** A column-wise method only looks at the mappings of the input's columns. *)
Lemma per_column_uses_prefix cpu_count
      (task : list Scipy.interp1d -> nat -> list float64 -> result (list float64))
      X s fs :
  interp_func_ s = Some fs ->
  (forall i col, i < Sklearn.n_features X ->
     task (firstn (Sklearn.n_features X) fs) i col = task fs i col) ->
  fst (per_column cpu_count task X
         (set_interp_func_ s (firstn (Sklearn.n_features X) fs)))
  = fst (per_column cpu_count task X s).
Proof.
  intros Hfs Htask. rewrite !per_column_unfold. rewrite Hfs.
  cbn [interp_func_ set_interp_func_ n_jobs].
  destruct (Sklearn.check_array X) as [X'|e] eqn:Hc; [|reflexivity].
  pose proof (check_array_ok _ _ Hc) as ->.
  assert (Hmap : map (fun ix (_ : unit) =>
                        task (firstn (Sklearn.n_features X) fs) (fst ix) (snd ix))
                     (columns X)
                 = map (fun ix (_ : unit) => task fs (fst ix) (snd ix))
                       (columns X)).
  { apply map_ext_in. intros [i col] Hin. simpl.
    rewrite Htask by (eapply in_columns, Hin). reflexivity. }
  rewrite Hmap. destruct (Joblib.Parallel _ _ _); reflexivity.
Qed.

Lemma interp_func_at_firstn fs c i :
  i < c -> interp_func_at (firstn c fs) i = interp_func_at fs i.
Proof.
  intros Hi. unfold interp_func_at. rewrite nth_error_firstn.
  destruct (Nat.ltb_spec i c); [reflexivity|lia].
Qed.

(** C4, as amended.  After a successful [fit] on [k] columns, a valid input
    with more than [k] columns makes [transform] and [inverse_transform]
    raise an index error and leave the instance unchanged.  A valid input
    with fewer columns is not refused: both methods return an array of the
    input's shape, and the outcome is the one obtained with only the first
    mappings kept; no column count is stored or compared. *)
Theorem column_count_mismatch (erf_fin erfinv_fin : Q -> Q)
        (cpu_count minval : nat) (X0 X : list (list float64))
        (s0 s : GuassRankScaler) :
  fit cpu_count minval X0 s0 = (Ok tt, s) ->
  Sklearn.check_array X = Ok X ->
  let k := Sklearn.n_features X0 in
  let c := Sklearn.n_features X in
  (k < c ->
   transform erfinv_fin cpu_count X s = (Raise IndexError, s) /\
   inverse_transform erf_fin cpu_count minval X s = (Raise IndexError, s)) /\
  (c <= k ->
   exists R R',
     transform erfinv_fin cpu_count X s = (Ok R, s) /\
     inverse_transform erf_fin cpu_count minval X s = (Ok R', s) /\
     has_shape (length X) c R /\ has_shape (length X) c R') /\
  (forall fs, interp_func_ s = Some fs ->
     fst (transform erfinv_fin cpu_count X (set_interp_func_ s (firstn c fs)))
     = fst (transform erfinv_fin cpu_count X s) /\
     fst (inverse_transform erf_fin cpu_count minval X
            (set_interp_func_ s (firstn c fs)))
     = fst (inverse_transform erf_fin cpu_count minval X s)).
Proof.
  intros Hfit Hc k c.
  destruct (fit_ok_state _ _ _ _ _ Hfit)
    as (fs & w & Hfs & Hjobs & _ & Hw & _ & Hall).
  assert (Hlen : length fs = k).
  { rewrite <- (Forall2_length Hall). apply transpose_length. }
  assert (Hinv : Forall (invertible_shape minval) fs).
  { clear -Hall. induction Hall as [|col f cols fs Hf _ IH]; constructor.
    - eapply fit_shape, Hf.
    - exact IH. }
  rewrite <- Hjobs in Hw.
  pose proof (per_column_outcome cpu_count (_transform erfinv_fin) X s fs w
                Hfs Hw Hc (transform_task erfinv_fin fs)) as [Tmore Tless].
  pose proof (per_column_outcome cpu_count (_inverse_transform erf_fin minval)
                X s fs w Hfs Hw Hc
                (fun i col => inverse_transform_task erf_fin minval fs i col Hinv))
    as [Imore Iless].
  rewrite Hlen in *. fold c in Tmore, Tless, Imore, Iless.
  unfold transform, inverse_transform. split; [|split].
  - intros H. split; [now apply Tmore|now apply Imore].
  - intros H. destruct (Tless H) as (R & HR & HsR).
    destruct (Iless H) as (R' & HR' & HsR').
    exists R, R'. auto.
  - intros fs' Hfs'. split; apply per_column_uses_prefix; try assumption.
    + intros i col Hi. unfold _transform.
      now rewrite interp_func_at_firstn.
    + intros i col Hi. unfold _inverse_transform.
      now rewrite interp_func_at_firstn.
Qed.

Lemma column_count_mismatch_witness :
  let X0 := [[F 1; F 5]; [F 2; F 7]] in
  let X := [[F 1; F 5; F 9]] in
  let s0 := __init__ None None None in
  let s := snd (fit 4 2 X0 s0) in
  fit 4 2 X0 s0 = (Ok tt, s) /\
  Sklearn.check_array X = Ok X /\
  Sklearn.n_features X0 < Sklearn.n_features X /\
  transform example_erf 4 X s = (Raise IndexError, s) /\
  inverse_transform example_erf 4 2 X s = (Raise IndexError, s).
Proof.
  intros X0 X s0 s.
  assert (Hfit : fit 4 2 X0 s0 = (Ok tt, s)) by (vm_compute; reflexivity).
  assert (Hc : Sklearn.check_array X = Ok X) by reflexivity.
  assert (Hlt : Sklearn.n_features X0 < Sklearn.n_features X)
    by (apply Nat.ltb_lt; reflexivity).
  split; [exact Hfit|]. split; [exact Hc|]. split; [exact Hlt|].
  exact (proj1 (column_count_mismatch example_erf example_erf 4 2 X0 X s0 s
                  Hfit Hc) Hlt).
Defined.

(** C4 as stated fails for an input with fewer columns than at fit time: a
    scaler fitted on two columns transforms a one-column input without any
    error. *)
Lemma fewer_columns_not_refused :
  let X0 := [[F 1; F 5]; [F 2; F 7]] in
  let X := [[F 1]] in
  let s0 := __init__ None None None in
  let s := snd (fit 4 2 X0 s0) in
  fit 4 2 X0 s0 = (Ok tt, s) /\
  Sklearn.check_array X = Ok X /\
  Sklearn.n_features X0 = 2 /\ Sklearn.n_features X = 1 /\
  raised (fst (transform example_erf 4 X s)) = false /\
  raised (fst (inverse_transform example_erf 4 2 X s)) = false.
Proof.
  vm_compute. repeat split; reflexivity.
Qed.

(** ** The scaling step at the two extreme ranks *)

(** C3, evaluated where it fails.  With [epsilon = 1/2], hence
    [bound = 1/2], and any largest rank [M >= 1]: rank 0 is scaled to
    [-bound] already before the clip, but the value computed for rank [M]
    before the clip is [7/2 = 2/bound - bound], not [bound]: [factor] is
    [(M/2) * bound] where a linear map onto [-bound, bound] needs
    [M / (2 * bound)].  That value lies outside [-bound, bound], and only the
    clip brings it to [bound]; at the upper endpoint the clip is not a
    no-op.  On the column [1, 2, 3] the values before the clip are
    -1/2, 3/2 and 7/2. *)
Theorem clip_changes_top_rank (M : nat) :
  1 <= M ->
  let eps := (1 # 2)%Q in
  feq (bound_of eps) (Fin (1 # 2)) /\
  feq (unclipped_rank eps M 0) (neg (bound_of eps)) /\
  feq (unclipped_rank eps M M) (Fin (7 # 2)) /\
  leb (unclipped_rank eps M M) (bound_of eps) = false /\
  feq (scale_rank eps M M) (bound_of eps) /\
  ~ feq (scale_rank eps M M) (unclipped_rank eps M M) /\
  Forall2 feq
    (map (unclipped_rank eps 2) (rank_of (drop_duplicates [F 1; F 2; F 3])))
    [Fin (-1 # 2); Fin (3 # 2); Fin (7 # 2)].
Proof.
  intros HM eps.
  assert (Heps : (0 < eps < 1)%Q) by (split; reflexivity).
  pose proof (raw_q_max eps M Heps HM) as Hmax.
  assert (Hraw : (raw_q eps M M == 7 # 2)%Q).
  { rewrite Hmax. reflexivity. }
  rewrite !(unclipped_rank_fin eps M _ (factor_nonzero eps M Heps HM)).
  rewrite !(scale_rank_fin eps M Heps HM).
  pose proof (quantile_q_max eps M Heps HM) as Hq.
  unfold bound_of. simpl.
  split; [reflexivity|]. split; [apply raw_q_zero|].
  split; [exact Hraw|]. split.
  - destruct (Qle_bool _ _) eqn:E; [|reflexivity].
    apply Qle_bool_iff in E. rewrite Hraw in E. exfalso.
    apply (Qle_not_lt _ _ E). reflexivity.
  - split; [exact Hq|]. split; [rewrite Hq, Hraw; discriminate|].
    vm_compute. repeat (constructor; [reflexivity|]). constructor.
Qed.

Lemma clip_changes_top_rank_witness :
  1 <= 2 /\
  feq (unclipped_rank (1 # 2) 2 2) (Fin (7 # 2)) /\
  feq (scale_rank (1 # 2) 2 2) (Fin (1 # 2)).
Proof.
  assert (H : 1 <= 2) by (apply Nat.leb_le; reflexivity).
  split; [exact H|].
  pose proof (clip_changes_top_rank 2 H) as (_ & _ & H3 & _ & H5 & _ & _).
  split; [exact H3|exact H5].
Defined.

(** ** A column with a single distinct value *)

Lemma first_occurrences_all_seen seen t :
  (forall a, In a t -> exists s, In s seen /\ eqb s a = true) ->
  first_occurrences seen t = [].
Proof.
  revert seen. induction t as [|a t IH]; intros seen H; simpl; [reflexivity|].
  destruct (H a (or_introl eq_refl)) as (s & Hs & E).
  assert (Ex : existsb (fun p => eqb p a) seen = true)
    by (apply existsb_exists; eauto).
  rewrite Ex. apply IH. intros a' Ha'.
  destruct (H a' (or_intror Ha')) as (s' & Hs' & E').
  exists s'. split; [apply in_or_app; now left|assumption].
Qed.

Lemma eqb_finite a v : finite v -> eqb a v = true -> finite a.
Proof.
  destruct v; try discriminate. intros _.
  destruct a; unfold eqb; simpl; try discriminate; reflexivity.
Qed.

(** C5. For a column whose entries all equal one finite value, [_fit] keeps
    that single value, its rank is 0 and so is [np.max(rank)]; [factor] is
    zero, the rank is divided by it with no test in between, the quotient is
    nan, and the scaled rank handed to [interp1d] is that nan, a non-finite
    value. *)
Theorem single_value_column_divides_by_zero (eps : Q) (v : float64)
        (t : list float64) :
  finite v -> Forall (fun a => eqb a v = true) t ->
  drop_duplicates (v :: t) = [v] /\
  rank_of [v] = [0] /\
  Np.max (rank_of [v]) = Ok 0 /\
  feq (factor_of eps 0) (Fin 0) /\
  div (of_nat 0) (factor_of eps 0) = NaN /\
  scaled_rank eps (v :: t) = Ok ([v], [NaN]) /\
  isfinite NaN = false.
Proof.
  intros Hv Ht.
  assert (Hfin : Forall finite (v :: t)).
  { constructor; [assumption|]. rewrite Forall_forall in *.
    intros a Ha. apply (eqb_finite a v Hv). now apply Ht. }
  assert (Hu : first_occurrences [] (v :: t) = [v]).
  { simpl. f_equal. apply first_occurrences_all_seen.
    intros a Ha. exists v. split; [now left|].
    rewrite Forall_forall in Ht. rewrite eqb_sym. now apply Ht. }
  assert (Hf0 : (factor_q eps 0 == 0)%Q).
  { unfold factor_q, bound_q. simpl. change (inject_Z 0) with 0%Q. field. }
  assert (Hdiv : div (of_nat 0) (factor_of eps 0) = NaN).
  { unfold factor_of, bound_of, of_nat. simpl.
    reflexivity. }
  split; [now rewrite drop_duplicates_first_occurrences|].
  split; [reflexivity|]. split; [reflexivity|].
  split; [exact Hf0|]. split; [exact Hdiv|]. split; [|reflexivity].
  rewrite scaled_rank_char by (assumption || discriminate).
  rewrite Hu. simpl. unfold scale_rank, unclipped_rank.
  rewrite Hdiv. reflexivity.
Qed.

Lemma single_value_column_divides_by_zero_witness :
  finite (F 7) /\ Forall (fun a => eqb a (F 7) = true) [F 7; F 7] /\
  scaled_rank (1 # 10000) [F 7; F 7; F 7] = Ok ([F 7], [NaN]).
Proof.
  assert (H : finite (F 7)) by reflexivity.
  assert (H' : Forall (fun a => eqb a (F 7) = true) [F 7; F 7])
    by (repeat constructor).
  split; [exact H|]. split; [exact H'|].
  exact (proj1 (proj2 (proj2 (proj2 (proj2 (proj2
    (single_value_column_divides_by_zero (1 # 10000) (F 7) [F 7; F 7] H H'))))))).
Defined.

(** ** Deduplication and ranking *)

Lemma take_argsort_perm u : Permutation (Np.take u (Np.argsort_float u)) u.
Proof.
  unfold Np.take, Np.argsort_float. rewrite take_argsort.
  rewrite (Permutation_map fst (sort_pairs_perm sort_leb (Np.enumerate u))).
  now rewrite map_fst_enumerate.
Qed.

(** C6, as amended.  For a column of finite values, [drop_duplicates] returns
    each distinct value exactly once, in the order of first appearance in the
    column (not in ascending order), so at most as many values as the column
    has.  The ranking step then gives the value at position [i] the integer
    rank [k] for which it is the [k]-th smallest of the retained values
    (counting from 0): the retained values read in ascending order are
    strictly increasing, and the value at position [i] sits at index
    [rank[i]] among them. *)
Theorem drop_duplicates_then_rank (x : list float64) :
  Forall finite x ->
  let u := drop_duplicates x in
  let ascending := Np.take u (Np.argsort_float u) in
  u = first_occurrences [] x /\
  ForallOrdPairs (fun a b => eqb a b = false) u /\
  (forall v, In v x -> exists d, In d u /\ eqb d v = true) /\
  (forall d, In d u -> In d x) /\
  length u <= length x /\
  Permutation ascending u /\
  StronglySorted (fun a b => ltb a b = true) ascending /\
  length (rank_of u) = length u /\
  forall i, i < length u ->
    nth i (rank_of u) 0 < length u /\
    nth (nth i (rank_of u) 0) ascending NaN = nth i u NaN.
Proof.
  intros Hfin u ascending.
  assert (Hu : u = first_occurrences [] x)
    by now apply drop_duplicates_first_occurrences.
  assert (Hd : ForallOrdPairs (fun a b => eqb a b = false) u)
    by (rewrite Hu; apply first_occurrences_distinct).
  assert (Hf : Forall finite u)
    by (rewrite Hu; now apply first_occurrences_finite).
  split; [exact Hu|]. split; [exact Hd|]. split.
  { intros v Hv. rewrite Hu.
    destruct (first_occurrences_complete [] x v Hfin Hv) as (d & Hin & E).
    exists d. auto. }
  split.
  { intros d Hin. rewrite Hu in Hin. eapply first_occurrences_incl, Hin. }
  split; [rewrite Hu; apply first_occurrences_length|].
  split; [apply take_argsort_perm|].
  split; [now apply sorted_values_increasing|].
  split; [apply rank_of_length|].
  intros i Hi. now apply rank_of_spec.
Qed.

Lemma drop_duplicates_then_rank_witness :
  Forall finite [F 1; F 1; F 2; F 3] /\
  drop_duplicates [F 1; F 1; F 2; F 3]
  = first_occurrences [] [F 1; F 1; F 2; F 3].
Proof.
  assert (H : Forall finite [F 1; F 1; F 2; F 3]) by (repeat constructor).
  split; [exact H|].
  exact (proj1 (drop_duplicates_then_rank [F 1; F 1; F 2; F 3] H)).
Defined.

(** The scenario of the specification: [1, 1, 2, 3] keeps three values and
    the value 1 gets rank 0. *)
Example drop_duplicates_scenario :
  drop_duplicates [F 1; F 1; F 2; F 3] = [F 1; F 2; F 3] /\
  rank_of (drop_duplicates [F 1; F 1; F 2; F 3]) = [0; 1; 2].
Proof. split; reflexivity. Qed.

(** C6 as stated fails on a column that is not ascending: the retained values
    keep the column's order and are not strictly increasing. *)
Lemma drop_duplicates_keeps_column_order :
  Forall finite [F 3; F 1; F 2] /\
  drop_duplicates [F 3; F 1; F 2] = [F 3; F 1; F 2] /\
  ~ StronglySorted (fun a b => ltb a b = true) (drop_duplicates [F 3; F 1; F 2]).
Proof.
  split; [repeat constructor|]. split; [reflexivity|].
  intros H. change (drop_duplicates [F 3; F 1; F 2]) with [F 3; F 1; F 2] in H.
  apply StronglySorted_inv in H as [_ H].
  apply Forall_inv in H. discriminate H.
Qed.

(** ** Inverting a linear interpolator *)

(** The stable sort leaves an ascending array as it is. *)
Lemma sort_pairs_sorted_id {A} (le : A -> A -> bool) (l : list (A * nat)) :
  StronglySorted (fun p q => le (fst p) (fst q) = true) l ->
  Np.sort_pairs le l = l.
Proof.
  induction 1 as [|p t Ht IH Hp]; simpl; [reflexivity|].
  rewrite IH. destruct t as [|h t']; simpl; [reflexivity|].
  apply Forall_inv in Hp. now rewrite Hp.
Qed.

Lemma enumerate_sorted {A} (le : A -> A -> bool) (l : list A) off :
  StronglySorted (fun a b => le a b = true) l ->
  StronglySorted (fun p q : A * nat => le (fst p) (fst q) = true)
                 (combine l (seq off (length l))).
Proof.
  intros H. revert off. induction H as [|a t Ht IH Ha]; intros off; simpl;
    constructor.
  - apply IH.
  - rewrite Forall_forall in *. intros [b j] Hin. simpl.
    apply Ha. eapply in_combine_l, Hin.
Qed.

Lemma argsort_sorted_id {A} (le : A -> A -> bool) (l : list A) :
  StronglySorted (fun a b => le a b = true) l ->
  Np.argsort le l = seq 0 (length l).
Proof.
  intros H. unfold Np.argsort.
  rewrite sort_pairs_sorted_id by (apply enumerate_sorted; assumption).
  apply map_snd_enumerate.
Qed.

Lemma take_seq l : Np.take l (seq 0 (length l)) = l.
Proof.
  unfold Np.take. apply (nth_ext _ _ NaN NaN).
  - now rewrite length_map, length_seq.
  - intros i Hi. rewrite length_map, length_seq in Hi.
    rewrite (nth_indep _ NaN ((fun i => nth i l NaN) 0))
      by (rewrite length_map, length_seq; exact Hi).
    rewrite (map_nth (fun i => nth i l NaN)), seq_nth by exact Hi.
    reflexivity.
Qed.

(** On ascending abscissae [interp1d] stores the control points as given. *)
Lemma interp1d_init_sorted minval xs ys :
  length xs = length ys -> minval <= length xs ->
  StronglySorted (fun a b => sort_leb a b = true) xs ->
  Scipy.interp1d_init minval xs ys = Ok (Scipy.mk_interp1d xs ys).
Proof.
  intros Hlen Hmin Hs. unfold Scipy.interp1d_init.
  rewrite Hlen, Nat.eqb_refl. simpl.
  assert (E : (length ys <? minval) = false) by (apply Nat.ltb_ge; lia).
  rewrite E. unfold Np.argsort_float.
  rewrite (argsort_sorted_id sort_leb xs Hs).
  rewrite take_seq. rewrite Hlen, take_seq. reflexivity.
Qed.

(** [erfinv] of a quantile strictly inside (-1, 1) is finite. *)
Lemma erfinv_inside (erfinv_fin : Q -> Q) q :
  (-1 < q < 1)%Q -> erfinv erfinv_fin (Fin q) = Fin (erfinv_fin q).
Proof.
  intros [H1 H2]. unfold erfinv.
  assert (E1 : Qeq_bool q 1 = false) by (apply Qeq_bool_false; lra).
  assert (E2 : Qeq_bool q (-1) = false) by (apply Qeq_bool_false; lra).
  assert (E3 : Qltb (-1) q = true) by now apply Qltb_lt.
  assert (E4 : Qltb q 1 = true) by now apply Qltb_lt.
  now rewrite E1, E2, E3, E4.
Qed.

(** The inverse interpolator at a quantile that is strictly above the one
    before it returns the control point of that quantile. *)
Lemma inverse_at_control_point (qx qy : list Q) k w :
  length qy = length qx -> 2 <= length qx ->
  StronglySorted Qlt qx -> StronglySorted Qle qy ->
  k < length qx ->
  (nth (k - 1) qy 0 < nth (Nat.max k 1) qy 0)%Q ->
  (w == nth k qy 0)%Q ->
  exists r,
    Scipy.call_linear (Scipy.mk_interp1d (map Fin qy) (map Fin qx)) (Fin w)
    = Fin r /\ (r == nth k qx 0)%Q.
Proof.
  intros Hlen Htwo Hsx Hsy Hk Hstrict Hw.
  assert (Hs : Np.searchsorted (map Fin qy) (Fin w) = k).
  { apply searchsorted_spec; [lia| |intros _; rewrite Hw; apply Qle_refl].
    intros i Hi. rewrite Hw.
    replace (Nat.max k 1) with k in Hstrict by lia.
    apply (Qle_lt_trans _ (nth (k - 1) qy 0%Q)); [|exact Hstrict].
    destruct (Nat.eq_dec i (k - 1)) as [->|Hne]; [apply Qle_refl|].
    apply StronglySorted_nth; [assumption|lia|lia]. }
  exists (segment_q qy qx (Nat.max k 1) w). split.
  - apply call_linear_located; [lia|lia| |].
    + replace (Nat.max k 1 - 1) with (k - 1) by lia. exact Hstrict.
    + rewrite Hs. unfold Np.clip_index. lia.
  - unfold segment_q. replace (Nat.max k 1 - 1) with (k - 1) in * by lia.
    destruct k as [|k].
    + simpl in *. rewrite Hw. field. lra.
    + replace (Nat.max (S k) 1) with (S k) in * by lia.
      replace (S k - 1) with k in * by lia.
      rewrite Hw. field. lra.
Qed.

(** ** The fitted control points, as rationals *)

Section FittedFacts.
Variable eps : Q.
Variable x : list float64.
Hypothesis eps_range : (0 < eps < 1)%Q.
Hypothesis x_finite : Forall finite x.
Hypothesis two_values : 2 <= length (first_occurrences [] x).

Let u := first_occurrences [] x.
Let m := length u.
Let f := fitted_mapping eps x.
Let qx := map to_q (Scipy.x f).
Let qy := map (quantile_q eps (m - 1)) (seq 0 m).

Lemma fitted_x_perm : Permutation (Scipy.x f) u.
Proof. apply take_argsort_perm. Qed.

Lemma fitted_x_finite : Forall finite (Scipy.x f).
Proof.
  apply Forall_forall. intros a Ha.
  apply (Permutation_in _ fitted_x_perm) in Ha.
  pose proof (first_occurrences_finite [] x x_finite) as H.
  rewrite Forall_forall in H. now apply H.
Qed.

Lemma fitted_x_in a : In a (Scipy.x f) -> In a x.
Proof.
  intros Ha. apply (Permutation_in _ fitted_x_perm) in Ha.
  eapply first_occurrences_incl, Ha.
Qed.

Lemma fitted_x_fin : Scipy.x f = map Fin qx.
Proof. symmetry. apply map_fin_to_q, fitted_x_finite. Qed.

Lemma fitted_y_fin : Scipy.y f = map Fin qy.
Proof.
  unfold f, fitted_mapping, qy. simpl. fold u m. rewrite map_map.
  apply map_ext. intros r. apply scale_rank_fin; [assumption|].
  unfold m, u. lia.
Qed.

Lemma fitted_qx_length : length qx = m.
Proof.
  unfold qx. rewrite length_map.
  apply (Permutation_length fitted_x_perm).
Qed.

Lemma fitted_qy_length : length qy = length qx.
Proof. rewrite fitted_qx_length. unfold qy. now rewrite length_map, length_seq. Qed.

Lemma fitted_qx_sorted : StronglySorted Qlt qx.
Proof.
  unfold qx.
  apply (StronglySorted_map (fun a b => ltb a b = true)).
  - intros a b Ha Hb Hab.
    pose proof fitted_x_finite as Hf. rewrite Forall_forall in Hf.
    pose proof (Hf a Ha) as Fa. pose proof (Hf b Hb) as Fb.
    destruct a, b; try discriminate. simpl in *. now apply Qltb_lt.
  - apply sorted_values_increasing.
    + now apply first_occurrences_finite.
    + apply first_occurrences_distinct.
Qed.

Lemma fitted_qy_nth k : k < m -> nth k qy 0%Q = quantile_q eps (m - 1) k.
Proof.
  intros Hk. unfold qy.
  rewrite (nth_indep _ 0%Q (quantile_q eps (m - 1) 0))
    by (rewrite length_map, length_seq; lia).
  rewrite map_nth, seq_nth by lia. reflexivity.
Qed.

Lemma fitted_form : f = Scipy.mk_interp1d (map Fin qx) (map Fin qy).
Proof.
  rewrite <- fitted_x_fin, <- fitted_y_fin. now destruct f.
Qed.

(** The fitted quantiles, in the order of the sorted values, never decrease. *)
Lemma fitted_qy_sorted : StronglySorted Qle qy.
Proof.
  unfold qy. apply (StronglySorted_map lt); [|apply seq_sorted].
  intros a b _ Hb Hab. apply in_seq in Hb.
  apply quantile_q_mono; [assumption|unfold m, u; lia|lia].
Qed.

Lemma fitted_y_sorted :
  StronglySorted (fun a b => sort_leb a b = true) (Scipy.y f).
Proof.
  rewrite fitted_y_fin.
  apply (StronglySorted_map Qle); [|apply fitted_qy_sorted].
  intros a b _ _ Hab. simpl. now apply Qle_bool_iff.
Qed.

Lemma fitted_x_nth k : k < m -> nth k (Scipy.x f) NaN = Fin (nth k qx 0%Q).
Proof.
  intros Hk. rewrite fitted_x_fin at 1.
  rewrite (nth_indep _ NaN (Fin 0)) by (rewrite length_map, fitted_qx_length; lia).
  apply (map_nth Fin).
Qed.

Variable erf_fin erfinv_fin : Q -> Q.
Variable minval : nat.
Hypothesis erf_erfinv :
  forall q, (-1 < q < 1)%Q -> (erf_fin (erfinv_fin q) == q)%Q.
Hypothesis enough_points : minval <= m.

(** Where the fitted quantile of a value is strictly above the quantile of
    the value before it, transforming the value and transforming back
    returns it.  (The first value always qualifies.) *)
Lemma roundtrip_at_separated_quantile k :
  k < m ->
  (quantile_q eps (m - 1) (k - 1) < quantile_q eps (m - 1) (Nat.max k 1))%Q ->
  exists z r,
    _transform erfinv_fin [f] 0 [nth k (Scipy.x f) NaN] = Ok [Fin z] /\
    _inverse_transform erf_fin minval [f] 0 [Fin z] = Ok [Fin r] /\
    feq (Fin r) (nth k (Scipy.x f) NaN).
Proof.
  intros Hk Hsep. pose proof fitted_qx_length as Hlen.
  assert (Hm : 2 <= m) by exact two_values.
  destruct (call_linear_at qx qy fitted_qx_sorted fitted_qy_length
              ltac:(lia) k ltac:(lia)) as (q & Hq & Hqk).
  rewrite fitted_qy_nth in Hqk by exact Hk.
  assert (Hrange : (-1 < q < 1)%Q).
  { pose proof (quantile_q_range eps (m - 1) eps_range k) as H.
    unfold bound_q in H. rewrite Hqk. lra. }
  assert (Hw : (erf_fin (erfinv_fin q) == nth k qy 0)%Q).
  { rewrite fitted_qy_nth by exact Hk. now rewrite erf_erfinv. }
  destruct (inverse_at_control_point qx qy k (erf_fin (erfinv_fin q)))
    as (r & Hr & Hrk); try assumption.
  - apply fitted_qy_length.
  - lia.
  - apply fitted_qx_sorted.
  - apply fitted_qy_sorted.
  - lia.
  - rewrite !fitted_qy_nth by lia. exact Hsep.
  - exists (erfinv_fin q), r. rewrite fitted_x_nth by exact Hk.
    unfold _transform, _inverse_transform.
    cbn [interp_func_at nth_error rbind Scipy.call map].
    rewrite interp1d_init_sorted.
    + cbn [rbind Scipy.call map erf].
      rewrite <- fitted_form in Hq.
      rewrite <- fitted_y_fin, <- fitted_x_fin in Hr.
      rewrite Hq, Hr, erfinv_inside by exact Hrange.
      repeat split. exact Hrk.
    + rewrite fitted_y_fin, fitted_x_fin, !length_map. apply fitted_qy_length.
    + rewrite fitted_y_fin, length_map, fitted_qy_length, Hlen. exact enough_points.
    + apply fitted_y_sorted.
Qed.
End FittedFacts.

(** The half of the monotonicity claim that holds: the stored values are
    strictly increasing and the stored quantiles never decrease. *)
Lemma fit_control_points_monotone (minval : nat) (self : GuassRankScaler)
      (x : list float64) (f : Scipy.interp1d) :
  (0 < epsilon self < 1)%Q -> Forall finite x ->
  2 <= length (drop_duplicates x) ->
  _fit minval self x = Ok f ->
  StronglySorted (fun a b => ltb a b = true) (Scipy.x f) /\
  StronglySorted (fun a b => leb a b = true) (Scipy.y f).
Proof.
  intros Heps Hfin Htwo Hfit.
  rewrite drop_duplicates_first_occurrences in Htwo by assumption.
  assert (Hne : x <> []) by (intros ->; simpl in Htwo; lia).
  rewrite fit_char in Hfit by assumption.
  destruct (length (first_occurrences [] x) <? minval); [discriminate|].
  injection Hfit as <-. split.
  - apply sorted_values_increasing.
    + now apply first_occurrences_finite.
    + apply first_occurrences_distinct.
  - rewrite (fitted_y_fin (epsilon self) x Heps Htwo).
    apply (StronglySorted_map Qle);
      [|apply (fitted_qy_sorted (epsilon self) x Heps Htwo)].
    intros a b _ _ Hab. simpl. now apply Qle_bool_iff.
Qed.

(** ** Entries of the result of a column-wise method *)

Lemma transpose_nth n rows j :
  j < n ->
  nth j (Np.transpose n rows) [] = map (fun r => nth j r NaN) rows.
Proof.
  intros Hj. unfold Np.transpose.
  rewrite (nth_indep _ [] ((fun j => map (fun r => nth j r NaN) rows) 0))
    by (rewrite length_map, length_seq; exact Hj).
  rewrite (map_nth (fun j => map (fun r => nth j r NaN) rows)).
  now rewrite seq_nth.
Qed.

Lemma effective_n_jobs_ok cpu_count n_jobs :
  n_jobs <> Some 0%Z ->
  exists w, Joblib.effective_n_jobs cpu_count n_jobs = Ok w.
Proof.
  intros H. unfold Joblib.effective_n_jobs.
  destruct n_jobs as [n|]; [|eauto].
  destruct (n =? 0)%Z eqn:E; [apply Z.eqb_eq in E; congruence|].
  destruct (0 <? n)%Z; eauto.
Qed.

Lemma nth_map_in {A B} (h : A -> B) (l : list A) i d d' :
  i < length l -> nth i (map h l) d = h (nth i l d').
Proof.
  intros Hi. rewrite (nth_indep _ d (h d')) by (rewrite length_map; exact Hi).
  apply map_nth.
Qed.

Lemma columns_nth X j :
  j < Sklearn.n_features X ->
  nth j (columns X) (0, []) = (j, map (fun r => nth j r NaN) X).
Proof.
  intros Hj. unfold columns.
  rewrite combine_nth by (now rewrite length_seq, transpose_length).
  now rewrite seq_nth, transpose_nth.
Qed.

(** When the task of every input column succeeds and maps its column entry
    by entry, the method returns an array of the input's shape whose entry
    (i, j) is the image of the input's entry (i, j) under the map of column
    [j]. *)
Lemma per_column_entrywise cpu_count
      (task : list Scipy.interp1d -> nat -> list float64 -> result (list float64))
      (g : nat -> float64 -> float64) X s fs :
  interp_func_ s = Some fs ->
  n_jobs s <> Some 0%Z ->
  Sklearn.check_array X = Ok X ->
  (forall j col, j < Sklearn.n_features X -> task fs j col = Ok (map (g j) col)) ->
  exists R,
    per_column cpu_count task X s = (Ok R, s) /\
    has_shape (length X) (Sklearn.n_features X) R /\
    forall i j, i < length X -> j < Sklearn.n_features X ->
      nth j (nth i R []) NaN = g j (nth j (nth i X []) NaN).
Proof.
  intros Hfs Hjobs Hc Htask.
  destruct (effective_n_jobs_ok cpu_count _ Hjobs) as [w Hw].
  rewrite (per_column_in_order cpu_count task X s w Hw), Hfs, Hc.
  rewrite (sequence_all_ok _ (fun ix => map (g (fst ix)) (snd ix))).
  2: { intros [j col] Hin. simpl. apply Htask. eapply in_columns, Hin. }
  eexists. split; [reflexivity|]. split.
  - rewrite <- (columns_length X) at 1.
    rewrite <- (length_map (fun ix => map (g (fst ix)) (snd ix)) (columns X)).
    apply transpose_shape.
  - intros i j Hi Hj.
    rewrite transpose_nth by exact Hi.
    rewrite (nth_map_in _ _ j NaN [])
      by (rewrite length_map, columns_length; exact Hj).
    rewrite (nth_map_in _ _ j [] (0, []))
      by (rewrite columns_length; exact Hj).
    rewrite columns_nth by exact Hj. simpl.
    rewrite (nth_map_in _ _ i NaN NaN) by (rewrite length_map; exact Hi).
    now rewrite (nth_map_in _ _ i NaN []) by exact Hi.
Qed.

(** ** Values outside the fit-time range *)

(** Every value of a column is one of its control points, and conversely. *)
Lemma control_points_cover (eps : Q) (x : list float64) (a : float64) :
  Forall finite x -> In a x ->
  exists q, In q (map to_q (Scipy.x (fitted_mapping eps x)))
            /\ eqb (Fin q) a = true.
Proof.
  intros Hfin Ha.
  destruct (first_occurrences_complete [] x a Hfin Ha) as (d & Hd & E).
  simpl in Hd.
  apply (Permutation_in _ (Permutation_sym (fitted_x_perm eps x))) in Hd.
  rewrite (fitted_x_fin eps x Hfin) in Hd.
  apply in_map_iff in Hd as (q & <- & Hq). now exists q.
Qed.

Lemma control_points_from_column (eps : Q) (x : list float64) (q : Q) :
  Forall finite x -> In q (map to_q (Scipy.x (fitted_mapping eps x))) ->
  In (Fin q) x.
Proof.
  intros Hfin Hq. apply (fitted_x_in eps).
  rewrite (fitted_x_fin eps x Hfin). now apply in_map.
Qed.

(** A successful [_fit] on a validated column returns [fitted_mapping]. *)
Lemma fit_ok_fitted_mapping minval self x f :
  Forall finite x -> x <> [] -> _fit minval self x = Ok f ->
  f = fitted_mapping (epsilon self) x.
Proof.
  intros Hfin Hne Hfit. rewrite fit_char in Hfit by assumption.
  destruct (length (first_occurrences [] x) <? minval); congruence.
Qed.

Lemma two_values_nonempty x :
  Forall finite x -> 2 <= length (drop_duplicates x) ->
  2 <= length (first_occurrences [] x) /\ x <> [].
Proof.
  intros Hfin H. rewrite drop_duplicates_first_occurrences in H by assumption.
  split; [exact H|]. intros ->. simpl in H. lia.
Qed.

Lemma getitem_nat (l : list float64) (i : nat) :
  Np.getitem l (Z.of_nat i) = nth i l NaN.
Proof.
  unfold Np.getitem.
  destruct (Z.of_nat i <? 0)%Z eqn:E; [apply Z.ltb_lt in E; lia|].
  rewrite E, Nat2Z.id. reflexivity.
Qed.

(** Once the segment is located, [_call_linear] evaluates its line. *)
Lemma call_linear_line (f : Scipy.interp1d) (v : float64) (k : nat) :
  1 <= k ->
  Np.clip_index (Z.of_nat (Np.searchsorted (Scipy.x f) v)) 1
                (Z.of_nat (length (Scipy.x f)) - 1) = Z.of_nat k ->
  Scipy.call_linear f v
  = line_through (nth (k - 1) (Scipy.x f) NaN) (nth (k - 1) (Scipy.y f) NaN)
                 (nth k (Scipy.x f) NaN) (nth k (Scipy.y f) NaN) v.
Proof.
  intros Hk Hidx. unfold Scipy.call_linear, line_through. rewrite Hidx.
  replace (Z.of_nat k - 1)%Z with (Z.of_nat (k - 1)) by lia.
  now rewrite !getitem_nat.
Qed.

(** Where [erfinv] is finite, infinite and undefined. *)
Lemma erfinv_classes (erfinv_fin : Q -> Q) (q : float64) :
  (isfinite (erfinv erfinv_fin q) = true
   <-> exists r, q = Fin r /\ (-1 < r < 1)%Q) /\
  (erfinv erfinv_fin q = PInf <-> feq q (Fin 1)) /\
  (erfinv erfinv_fin q = NInf <-> feq q (Fin (-1))) /\
  (erfinv erfinv_fin q = NaN
   <-> ~ exists r, q = Fin r /\ (-1 <= r <= 1)%Q).
Proof.
  assert (Hcase : forall r (P : Q -> Prop),
             (exists r', Fin r = Fin r' /\ P r') -> P r).
  { intros r P (r' & E & H). injection E as <-. exact H. }
  assert (Hnot : forall a (P : Q -> Prop),
             isfinite a = false -> ~ exists r, a = Fin r /\ P r).
  { intros a P Ha (r & -> & _). discriminate. }
  destruct q as [r| | |].
  2-4: simpl; repeat split;
    try discriminate; try tauto; try reflexivity;
    try (intros Hex; exfalso; revert Hex; now apply Hnot);
    try (intros _; now apply Hnot).
  simpl.
  destruct (Qeq_bool r 1) eqn:E1.
  { apply Qeq_bool_iff in E1. repeat split;
      try discriminate; try reflexivity; try (intros _; exact E1).
    - intros Hex. apply Hcase in Hex. lra.
    - intros Hr. lra.
    - intros Hn. exfalso. apply Hn. exists r. split; [reflexivity|lra]. }
  apply Qeq_bool_false in E1.
  destruct (Qeq_bool r (-1)) eqn:E2.
  { apply Qeq_bool_iff in E2. repeat split;
      try discriminate; try reflexivity; try (intros _; exact E2).
    - intros Hex. apply Hcase in Hex. lra.
    - intros Hr. lra.
    - intros Hn. exfalso. apply Hn. exists r. split; [reflexivity|lra]. }
  apply Qeq_bool_false in E2.
  destruct (Qltb (-1) r) eqn:E3;
    [apply Qltb_lt in E3|apply Qltb_ge in E3];
    (destruct (Qltb r 1) eqn:E4;
     [apply Qltb_lt in E4|apply Qltb_ge in E4]);
    simpl; repeat split;
    try discriminate; try reflexivity;
    try (intros _; exists r; split; [reflexivity|lra]);
    try (intros Hex; apply Hcase in Hex; lra);
    try (intros Hr; lra);
    try (intros _ Hex; apply Hcase in Hex; lra);
    try (intros Hn; exfalso; apply Hn; exists r; split; [reflexivity|lra]).
Qed.

(** The abscissae of a fitted mapping: the distinct values of the column in
    strictly ascending order, every value of the column among them. *)
Lemma fitted_abscissae (eps : Q) (x : list float64) :
  Forall finite x ->
  let qx := map to_q (Scipy.x (fitted_mapping eps x)) in
  Scipy.x (fitted_mapping eps x) = map Fin qx /\
  length qx = length (first_occurrences [] x) /\
  StronglySorted Qlt qx /\
  (forall k, k < length qx -> In (Fin (nth k qx 0%Q)) x) /\
  (forall a, In a x ->
     exists k, k < length qx /\ eqb (Fin (nth k qx 0%Q)) a = true).
Proof.
  intros Hfin qx.
  split; [now apply fitted_x_fin|].
  split; [apply fitted_qx_length|].
  split; [now apply fitted_qx_sorted|]. split.
  - intros k Hk. apply (control_points_from_column eps x _ Hfin).
    now apply nth_In.
  - intros a Ha.
    destruct (control_points_cover eps x a Hfin Ha) as (q & Hq & E).
    apply (In_nth _ _ 0%Q) in Hq as (k & Hk & <-). now exists k.
Qed.

(** C7, as amended.  For a feature fitted on a column with at least two
    distinct values, [_transform] raises nothing whatever the inputs are,
    and [transform] on a validated array returns, at every entry of that
    feature, [erfinv] of the fitted mapping at the entry.  Nothing is
    clamped: for an input below every value of the column the quantile is
    the value of [line_through] for the two smallest control points, for an
    input above every value that for the two largest ones, and [erfinv] is
    applied to the quantile as it is.  The result is a finite number only
    for a quantile strictly inside (-1, 1), an infinity for a quantile of
    exactly 1 or -1, and nan for every other quantile. *)
Theorem transform_extrapolates_linearly (erfinv_fin : Q -> Q) (minval : nat)
        (self : GuassRankScaler) (x : list float64) (f : Scipy.interp1d)
        (fs : list Scipy.interp1d) (i : nat) :
  Forall finite x ->
  2 <= length (drop_duplicates x) ->
  _fit minval self x = Ok f ->
  nth_error fs i = Some f ->
  let n := length (Scipy.x f) in
  let X k := nth k (Scipy.x f) NaN in
  let Y k := nth k (Scipy.y f) NaN in
  (forall col,
     _transform erfinv_fin fs i col
     = Ok (map (fun v => erfinv erfinv_fin (Scipy.call_linear f v)) col)) /\
  (forall cpu_count A s,
     interp_func_ s = Some fs -> n_jobs s <> Some 0%Z ->
     Sklearn.check_array A = Ok A -> Sklearn.n_features A <= length fs ->
     exists R,
       transform erfinv_fin cpu_count A s = (Ok R, s) /\
       has_shape (length A) (Sklearn.n_features A) R /\
       forall r, r < length A -> i < Sklearn.n_features A ->
         nth i (nth r R []) NaN
         = erfinv erfinv_fin (Scipy.call_linear f (nth i (nth r A []) NaN))) /\
  (forall v, (forall a, In a x -> ltb (Fin v) a = true) ->
     Scipy.call_linear f (Fin v)
     = line_through (X 0) (Y 0) (X 1) (Y 1) (Fin v)) /\
  (forall v, (forall a, In a x -> ltb a (Fin v) = true) ->
     Scipy.call_linear f (Fin v)
     = line_through (X (n - 2)) (Y (n - 2)) (X (n - 1)) (Y (n - 1)) (Fin v)) /\
  (2 <= n /\ In (X 0) x /\ In (X 1) x /\ In (X (n - 2)) x /\ In (X (n - 1)) x /\
   (forall a, In a x -> eqb a (X 0) = true \/ leb (X 1) a = true) /\
   (forall a, In a x -> eqb a (X (n - 1)) = true \/ leb a (X (n - 2)) = true)) /\
  (forall q,
     (isfinite (erfinv erfinv_fin q) = true
      <-> exists r, q = Fin r /\ (-1 < r < 1)%Q) /\
     (erfinv erfinv_fin q = PInf <-> feq q (Fin 1)) /\
     (erfinv erfinv_fin q = NInf <-> feq q (Fin (-1))) /\
     (erfinv erfinv_fin q = NaN
      <-> ~ exists r, q = Fin r /\ (-1 <= r <= 1)%Q)).
Proof.
  intros Hfin Htwo Hfit Hi n X Y.
  destruct (two_values_nonempty x Hfin Htwo) as [Hm Hne].
  pose proof (fit_ok_fitted_mapping minval self x f Hfin Hne Hfit) as Hf.
  destruct (fitted_abscissae (epsilon self) x Hfin)
    as (Hx & Hlen & Hs & Hin & Hcov).
  rewrite <- Hf in Hx, Hlen, Hs, Hin, Hcov.
  set (qx := map to_q (Scipy.x f)) in *.
  assert (Hn : n = length qx) by (unfold n; rewrite Hx at 1; apply length_map).
  assert (HX : forall k, k < length qx -> X k = Fin (nth k qx 0%Q)).
  { intros k Hk. unfold X. rewrite Hx at 1.
    rewrite (nth_indep _ NaN (Fin 0)) by (rewrite length_map; exact Hk).
    apply (map_nth Fin). }
  assert (Hlt : forall j k, j < k -> k < length qx ->
                            (nth j qx 0 < nth k qx 0)%Q).
  { intros j k Hjk Hk. now apply StronglySorted_nth. }
  split; [|split; [|split; [|split; [|split]]]].
  - intros col. unfold _transform, interp_func_at. rewrite Hi.
    cbn [rbind]. unfold Scipy.call. now rewrite map_map.
  - intros cpu_count A s Hfs Hjobs Hc Hcount.
    set (dflt := Scipy.mk_interp1d [] []).
    destruct (per_column_entrywise cpu_count (_transform erfinv_fin)
                (fun j v => erfinv erfinv_fin
                              (Scipy.call_linear (nth j fs dflt) v))
                A s fs Hfs Hjobs Hc) as (R & HR & Hshape & Hentry).
    { intros j col Hj. unfold _transform, interp_func_at.
      rewrite (nth_error_nth' fs dflt) by lia.
      simpl. unfold Scipy.call. now rewrite map_map. }
    exists R. split; [exact HR|]. split; [exact Hshape|].
    intros r Hr Hcol. rewrite Hentry by assumption.
    now rewrite (nth_error_nth fs i dflt Hi).
  - intros v Hv.
    assert (H0 : (v < nth 0 qx 0)%Q).
    { apply Qltb_lt. apply (Hv (Fin (nth 0 qx 0%Q))), Hin. lia. }
    apply (call_linear_line f (Fin v) 1); [lia|].
    rewrite Hx at 1. rewrite (searchsorted_spec qx v 0);
      [|lia|lia|intros _; lra].
    fold n. unfold Np.clip_index. lia.
  - intros v Hv.
    assert (H0 : (nth (n - 1) qx 0 < v)%Q).
    { apply Qltb_lt. apply (Hv (Fin (nth (n - 1) qx 0%Q))), Hin. lia. }
    replace (n - 2) with (n - 1 - 1) by lia.
    apply (call_linear_line f (Fin v) (n - 1)); [lia|].
    rewrite Hx at 1. rewrite (searchsorted_spec qx v n); [|lia| |lia].
    + fold n. unfold Np.clip_index. lia.
    + intros k Hk. destruct (Nat.eq_dec k (n - 1)) as [->|Hk']; [exact H0|].
      apply (Qlt_trans _ (nth (n - 1) qx 0%Q)); [|exact H0].
      apply Hlt; lia.
  - split; [lia|].
    rewrite !HX by lia.
    repeat (split; [apply Hin; lia|]).
    split; intros a Ha; destruct (Hcov a Ha) as (k & Hk & E);
      assert (Fa : finite a) by (rewrite Forall_forall in Hfin; now apply Hfin);
      destruct a as [qa| | |]; try discriminate;
      apply (eqb_feq (Fin (nth k qx 0%Q)) (Fin qa)) in E; try reflexivity;
      simpl in E.
    + destruct (Nat.eq_dec k 0) as [->|Hk0].
      * left. apply (eqb_feq (Fin qa)); [reflexivity|]. simpl. now symmetry.
      * right. simpl. apply Qle_bool_iff. rewrite <- E.
        destruct (Nat.eq_dec k 1) as [->|Hk1]; [apply Qle_refl|].
        apply Qlt_le_weak, Hlt; lia.
    + destruct (Nat.eq_dec k (n - 1)) as [->|Hk0].
      * left. apply (eqb_feq (Fin qa)); [reflexivity|]. simpl. now symmetry.
      * right. simpl. apply Qle_bool_iff. rewrite <- E.
        destruct (Nat.eq_dec k (n - 2)) as [->|Hk1]; [apply Qle_refl|].
        apply Qlt_le_weak, Hlt; lia.
  - intros q. apply erfinv_classes.
Qed.

Lemma transform_extrapolates_linearly_witness :
  let self := __init__ None None None in
  let x := [F 1; F 2; F 3] in
  let f := fitted_mapping (epsilon self) x in
  Forall finite x /\ 2 <= length (drop_duplicates x) /\
  _fit 2 self x = Ok f /\ nth_error [f] 0 = Some f /\
  (forall a, In a x -> ltb (Fin 0) a = true) /\
  Scipy.call_linear f (Fin 0)
  = line_through (nth 0 (Scipy.x f) NaN) (nth 0 (Scipy.y f) NaN)
                 (nth 1 (Scipy.x f) NaN) (nth 1 (Scipy.y f) NaN) (Fin 0).
Proof.
  intros self x f.
  assert (H2 : Forall finite x) by (repeat constructor).
  assert (H3 : 2 <= length (drop_duplicates x))
    by (apply Nat.leb_le; reflexivity).
  assert (H4 : _fit 2 self x = Ok f) by (vm_compute; reflexivity).
  assert (H5 : nth_error [f] 0 = Some f) by reflexivity.
  assert (H6 : forall a, In a x -> ltb (Fin 0) a = true).
  { intros a [<-|[<-|[<-|[]]]]; reflexivity. }
  repeat (split; [assumption|]).
  exact (proj1 (proj2 (proj2 (transform_extrapolates_linearly example_erf 2
                                self x f [f] 0 H2 H3 H4 H5))) 0%Q H6).
Defined.

(** C7 as stated fails far enough outside the range: fitted on the column
    [0, 1] with [epsilon = 1/2], the input 2 gets the quantile 3/2, beyond
    1, and [transform] returns nan for it, which is neither a large number
    nor an infinity; the infinity comes out at the single input 3/2. *)
Lemma far_input_gives_nan :
  let s := snd (fit 4 2 [[F 0]; [F 1]] (__init__ (Some (1 # 2)%Q) None None)) in
  let f := Scipy.mk_interp1d [Fin 0; Fin 1] [Fin (-1 # 2); Fin (1 # 2)] in
  interp_func_ s = Some [f] /\
  (forall a, In a [F 0; F 1] -> ltb a (F 2) = true) /\
  feq (Scipy.call_linear f (F 2)) (Fin (3 # 2)) /\
  transform example_erf 4 [[F 2]] s = (Ok [[NaN]], s) /\
  transform example_erf 4 [[Fin (3 # 2)]] s = (Ok [[PInf]], s) /\
  isfinite NaN = false /\ NaN <> PInf /\ NaN <> NInf.
Proof.
  intros s f.
  split; [vm_compute; reflexivity|].
  split; [intros a [<-|[<-|[]]]; reflexivity|].
  split; [vm_compute; reflexivity|].
  split; [vm_compute; reflexivity|].
  split; [vm_compute; reflexivity|].
  repeat split; discriminate.
Qed.

(** ** The clip merges the top quantiles *)

(** As soon as the value before the clip reaches the bound at a rank below
    the largest one, that rank and the largest one get the same quantile. *)
Lemma quantile_q_collapse (eps : Q) (M r : nat) :
  (0 < eps < 1)%Q -> 1 <= M ->
  (bound_q eps <= raw_q eps M r)%Q ->
  (quantile_q eps M r == quantile_q eps M M)%Q.
Proof.
  intros Heps HM Hr. rewrite quantile_q_max by assumption.
  unfold quantile_q. apply clip_q_above; [|assumption].
  unfold bound_q. lra.
Qed.

(** With the default margin this happens from 5002 distinct values on. *)
Lemma default_margin_collapse :
  (quantile_q (1 # 10000) 5001 5000 == quantile_q (1 # 10000) 5001 5001)%Q.
Proof.
  apply quantile_q_collapse.
  - split; reflexivity.
  - apply Nat.leb_le. reflexivity.
  - apply Qle_bool_iff. vm_compute. reflexivity.
Qed.

(** So every column with 5002 distinct values, fitted with the default
    margin, gets the same quantile for its two largest values. *)
Lemma default_margin_fit_collapse (x : list float64) :
  Forall finite x ->
  length (drop_duplicates x) = 5002 ->
  let f := fitted_mapping (1 # 10000) x in
  feq (nth 5000 (Scipy.y f) NaN) (nth 5001 (Scipy.y f) NaN).
Proof.
  intros Hfin Hlen f.
  rewrite drop_duplicates_first_occurrences in Hlen by assumption.
  assert (Heps : (0 < 1 # 10000 < 1)%Q) by (split; reflexivity).
  assert (Htwo : 2 <= length (first_occurrences [] x)).
  { rewrite Hlen. apply Nat.leb_le. vm_compute. reflexivity. }
  assert (H0 : 5000 < length (first_occurrences [] x)).
  { rewrite Hlen. apply Nat.ltb_lt. vm_compute. reflexivity. }
  assert (H1 : 5001 < length (first_occurrences [] x)).
  { rewrite Hlen. apply Nat.ltb_lt. vm_compute. reflexivity. }
  assert (HM : length (first_occurrences [] x) - 1 = 5001).
  { rewrite Hlen. vm_compute. reflexivity. }
  unfold f. rewrite (fitted_y_fin (1 # 10000) x Heps Htwo).
  rewrite !(nth_indep _ NaN (Fin 0))
    by (rewrite !length_map, length_seq; assumption).
  rewrite !(map_nth Fin).
  rewrite !(fitted_qy_nth (1 # 10000) x) by assumption.
  rewrite HM. exact default_margin_collapse.
Qed.

(** C2, evaluated where it fails.  Fitting the column [1, 2, 3] with
    [epsilon = 1/2] stores the control points 1 < 2 < 3 against the quantiles
    -1/2, 1/2, 1/2: non-decreasing, but the last two are equal, so the
    quantile sequence is not strictly increasing and the mapping is not
    invertible. *)
Theorem top_quantiles_collapse :
  let self := __init__ (Some (1 # 2)%Q) None None in
  let f := Scipy.mk_interp1d [Fin 1; Fin 2; Fin 3]
                             [Fin (-2 # 4); Fin (1 # 2); Fin (1 # 2)] in
  (0 < epsilon self < 1)%Q /\
  _fit 2 self [F 1; F 2; F 3] = Ok f /\
  feq (nth 1 (Scipy.y f) NaN) (nth 2 (Scipy.y f) NaN) /\
  ~ StronglySorted (fun a b => ltb a b = true) (Scipy.y f).
Proof.
  intros self f. split; [split; reflexivity|].
  split; [vm_compute; reflexivity|]. split; [reflexivity|].
  intros H. apply StronglySorted_inv in H as [H _].
  apply StronglySorted_inv in H as [_ H].
  apply Forall_inv in H. discriminate H.
Qed.

(** ** The round trip *)

Lemma inverse_at_clipped (w : Q) :
  (w == 1 # 2)%Q ->
  exists r,
    Scipy.call_linear
      (Scipy.mk_interp1d [Fin (-2 # 4); Fin (1 # 2); Fin (1 # 2)]
                         [Fin 1; Fin 2; Fin 3])
      (Fin w) = Fin r /\ (r == 2)%Q.
Proof.
  intros Hw.
  assert (E1 : Qltb (-2 # 4) w = true)
    by (apply Qltb_lt; rewrite Hw; reflexivity).
  assert (E2 : Qltb (1 # 2) w = false)
    by (apply Qltb_ge; rewrite Hw; discriminate).
  unfold Scipy.call_linear.
  cbn [Scipy.x Scipy.y Np.searchsorted length ltb].
  rewrite E1, E2.
  repeat match goal with
         | |- context [Np.getitem ?l ?i] =>
             let v := eval vm_compute in (Np.getitem l i) in
             change (Np.getitem l i) with v
         end.
  match goal with
  | |- context [div ?a ?b] =>
      let v := eval vm_compute in (div a b) in change (div a b) with v
  end.
  unfold sub, neg, add, mul.
  eexists. split; [reflexivity|]. lra.
Qed.

(** C1, evaluated where it fails.  Whatever inverse pair stands for [erf] and
    [erfinv]: fit the one-column data [1, 2, 3] with [epsilon = 1/2],
    transform the fit-time value 3 and transform the result back.  Every call
    succeeds, and the value that comes back is 2, not 3: the quantiles of 2
    and 3 were both clipped to [bound]. *)
Theorem roundtrip_loses_clipped_value (erf_fin erfinv_fin : Q -> Q)
        (cpu_count minval : nat) :
  minval <= 3 ->
  (forall q, (-1 < q < 1)%Q -> (erf_fin (erfinv_fin q) == q)%Q) ->
  let s0 := __init__ (Some (1 # 2)%Q) None None in
  exists s z r,
    fit cpu_count minval [[F 1]; [F 2]; [F 3]] s0 = (Ok tt, s) /\
    transform erfinv_fin cpu_count [[F 3]] s = (Ok [[Fin z]], s) /\
    inverse_transform erf_fin cpu_count minval [[Fin z]] s
    = (Ok [[Fin r]], s) /\
    (r == 2)%Q /\ ~ (r == 3)%Q.
Proof.
  intros Hmin Hinv s0.
  set (s := set_interp_func_ s0
              [Scipy.mk_interp1d [Fin 1; Fin 2; Fin 3]
                                 [Fin (-2 # 4); Fin (1 # 2); Fin (1 # 2)]]).
  assert (Hcases : minval = 0 \/ minval = 1 \/ minval = 2 \/ minval = 3) by lia.
  assert (Hi : Scipy.interp1d_init minval
                 [Fin (-2 # 4); Fin (1 # 2); Fin (1 # 2)] [Fin 1; Fin 2; Fin 3]
               = Ok (Scipy.mk_interp1d [Fin (-2 # 4); Fin (1 # 2); Fin (1 # 2)]
                                       [Fin 1; Fin 2; Fin 3])).
  { destruct Hcases as [->|[->|[->| ->]]]; vm_compute; reflexivity. }
  assert (Hw : (erf_fin (erfinv_fin (4 # 8)) == 1 # 2)%Q).
  { rewrite Hinv; [reflexivity|]. split; reflexivity. }
  destruct (inverse_at_clipped _ Hw) as (r & Hr & Hr2).
  exists s, (erfinv_fin (4 # 8)), r.
  split; [destruct Hcases as [->|[->|[->| ->]]]; vm_compute; reflexivity|].
  split; [vm_compute; reflexivity|].
  split; [|split; [exact Hr2|rewrite Hr2; discriminate]].
  unfold inverse_transform.
  rewrite (per_column_in_order cpu_count _ _ s 1) by reflexivity.
  cbn [interp_func_ s set_interp_func_].
  change (Sklearn.check_array [[Fin (erfinv_fin (4 # 8))]])
    with (Ok [[Fin (erfinv_fin (4 # 8))]]).
  cbv beta iota.
  change (columns [[Fin (erfinv_fin (4 # 8))]])
    with [(0, [Fin (erfinv_fin (4 # 8))])].
  cbn [map sequence fst snd].
  unfold _inverse_transform.
  cbn [interp_func_at nth_error rbind Scipy.x Scipy.y].
  rewrite Hi.
  cbn [rbind Scipy.call map erf]. rewrite Hr. reflexivity.
Qed.

Lemma roundtrip_loses_clipped_value_witness :
  2 <= 3 /\
  (forall q, (-1 < q < 1)%Q -> (example_erf (example_erf q) == q)%Q) /\
  exists s z r,
    fit 4 2 [[F 1]; [F 2]; [F 3]] (__init__ (Some (1 # 2)%Q) None None)
    = (Ok tt, s) /\
    transform example_erf 4 [[F 3]] s = (Ok [[Fin z]], s) /\
    inverse_transform example_erf 4 2 [[Fin z]] s = (Ok [[Fin r]], s) /\
    (r == 2)%Q /\ ~ (r == 3)%Q.
Proof.
  assert (H : 2 <= 3) by (apply Nat.leb_le; reflexivity).
  assert (H' : forall q, (-1 < q < 1)%Q -> (example_erf (example_erf q) == q)%Q)
    by (intros q _; reflexivity).
  split; [exact H|]. split; [exact H'|].
  exact (roundtrip_loses_clipped_value example_erf example_erf 4 2 H H').
Defined.

(** * Further properties of the code *)

(** ** What a validated array looks like *)

Lemma check_array_facts X :
  Sklearn.check_array X = Ok X ->
  1 <= length X /\ 1 <= Sklearn.n_features X /\
  Forall (fun r => length r = Sklearn.n_features X) X /\
  Forall (Forall finite) X.
Proof.
  unfold Sklearn.check_array. destruct X as [|r0 X]; [discriminate|].
  destruct (forallb (fun r => length r =? length r0) (r0 :: X)) eqn:Hrect;
    [|discriminate].
  destruct (length r0 =? 0) eqn:Hc; [discriminate|].
  destruct (forallb (forallb isfinite) (r0 :: X)) eqn:Hfin; [|discriminate].
  intros _. cbn [Sklearn.n_features negb].
  apply Nat.eqb_neq in Hc. rewrite forallb_forall in Hrect, Hfin.
  split; [simpl; lia|]. split; [lia|]. split.
  - apply Forall_forall. intros r Hr. apply Nat.eqb_eq. now apply Hrect.
  - apply Forall_forall. intros r Hr. apply Forall_forall. intros v Hv.
    specialize (Hfin r Hr). rewrite forallb_forall in Hfin. now apply Hfin.
Qed.

Lemma in_transpose n rows col :
  In col (Np.transpose n rows) ->
  exists j, j < n /\ col = map (fun r => nth j r NaN) rows.
Proof.
  unfold Np.transpose. intros H. apply in_map_iff in H as (j & <- & Hj).
  apply in_seq in Hj. exists j. split; [lia|reflexivity].
Qed.

(** The columns of a validated array are non-empty and all finite. *)
Lemma validated_columns X col :
  Sklearn.check_array X = Ok X ->
  In col (Np.transpose (Sklearn.n_features X) X) ->
  Forall finite col /\ col <> [] /\ length col = length X.
Proof.
  intros Hc Hin. destruct (check_array_facts X Hc) as (Hn & Hf & Hrect & Hfin).
  apply in_transpose in Hin as (j & Hj & ->).
  split; [|split].
  - apply Forall_forall. intros v Hv. apply in_map_iff in Hv as (r & <- & Hr).
    rewrite Forall_forall in Hrect, Hfin.
    pose proof (Hfin r Hr) as Hrf. rewrite Forall_forall in Hrf.
    apply Hrf, nth_In. rewrite (Hrect r Hr). exact Hj.
  - destruct X; simpl in *; [lia|discriminate].
  - apply length_map.
Qed.

Lemma sequence_raise_inv {A B} (f : A -> result B) l e :
  sequence (map f l) = Raise e -> exists a, In a l /\ f a = Raise e.
Proof.
  induction l as [|a l IH]; simpl; [discriminate|].
  destruct (f a) as [b|e'] eqn:Ha; simpl.
  - destruct (sequence (map f l)) as [bs|e'']; simpl; [discriminate|].
    intros [= <-]. destruct IH as (a' & Hin & Ha'); [reflexivity|].
    exists a'. auto.
  - intros [= <-]. exists a. auto.
Qed.

Lemma Parallel_raise_inv {A} cpu_count n_jobs (tasks : list (@Joblib.task A)) e :
  Joblib.Parallel cpu_count n_jobs tasks = Raise e ->
  e = ValueError \/ exists t, In t tasks /\ t tt = Raise e.
Proof.
  destruct (Joblib.effective_n_jobs cpu_count n_jobs) as [w|e'] eqn:Hw.
  - rewrite (Parallel_in_order cpu_count _ w _ Hw). intros H.
    apply sequence_raise_inv in H. now right.
  - unfold Joblib.Parallel. rewrite Hw. simpl. intros [= <-]. left.
    unfold Joblib.effective_n_jobs in Hw.
    destruct n_jobs as [n|]; [|discriminate].
    destruct (n =? 0)%Z; [congruence|]. destruct (0 <? n)%Z; discriminate.
Qed.

Lemma _fit_raises_value_error minval self x e :
  _fit minval self x = Raise e -> e = ValueError.
Proof.
  unfold _fit, scaled_rank.
  destruct (Np.max (rank_of (drop_duplicates x))) as [mr|e'] eqn:Hm; simpl.
  - unfold Scipy.interp1d_init.
    repeat match goal with |- context [if ?c then _ else _] => destruct c end;
      congruence.
  - unfold Np.max in Hm. destruct (rank_of (drop_duplicates x));
      [|discriminate]. congruence.
Qed.

(** ** What [fit] stores, and how it fails *)

Lemma fit_on_validated (cpu_count minval : nat) (X : list (list float64))
      (self : GuassRankScaler) :
  Sklearn.check_array X = Ok X ->
  n_jobs self <> Some 0%Z ->
  Forall (fun col => minval <= length (drop_duplicates col))
         (Np.transpose (Sklearn.n_features X) X) ->
  fit cpu_count minval X self
  = (Ok tt, set_interp_func_ self
              (map (fitted_mapping (epsilon self))
                   (Np.transpose (Sklearn.n_features X) X))).
Proof.
  intros Hc Hjobs Hcols.
  destruct (effective_n_jobs_ok cpu_count _ Hjobs) as [w Hw].
  rewrite (fit_in_order cpu_count minval X self w Hw), Hc.
  rewrite (sequence_all_ok _ (fitted_mapping (epsilon self))); [reflexivity|].
  intros col Hin.
  destruct (validated_columns X col Hc Hin) as (Hfin & Hne & _).
  rewrite fit_char by assumption.
  rewrite Forall_forall in Hcols. specialize (Hcols col Hin).
  rewrite drop_duplicates_first_occurrences in Hcols by assumption.
  destruct (Nat.ltb_spec (length (first_occurrences [] col)) minval);
    [lia|reflexivity].
Qed.

(** X1. On a validated array, with a worker count other than zero, and when
    every column has at least as many distinct values as [interp1d] asks for,
    [fit] succeeds, changes nothing but [interp_func_], and stores exactly
    one interpolator per column, in column order: for column [j] its distinct
    values in ascending order against the scaled ranks 0 .. m-1. *)
Theorem fit_stores_one_mapping_per_column (cpu_count minval : nat)
        (X : list (list float64)) (self : GuassRankScaler) :
  Sklearn.check_array X = Ok X ->
  n_jobs self <> Some 0%Z ->
  Forall (fun col => minval <= length (drop_duplicates col))
         (Np.transpose (Sklearn.n_features X) X) ->
  let fs := map (fitted_mapping (epsilon self))
                (Np.transpose (Sklearn.n_features X) X) in
  fit cpu_count minval X self = (Ok tt, set_interp_func_ self fs) /\
  length fs = Sklearn.n_features X.
Proof.
  intros Hc Hjobs Hcols fs. split.
  - now apply fit_on_validated.
  - unfold fs. now rewrite length_map, transpose_length.
Qed.

Lemma fit_stores_one_mapping_per_column_witness :
  let X := [[F 1; F 5]; [F 2; F 7]; [F 2; F 6]] in
  let self := __init__ None None None in
  Sklearn.check_array X = Ok X /\ n_jobs self <> Some 0%Z /\
  Forall (fun col => 2 <= length (drop_duplicates col))
         (Np.transpose (Sklearn.n_features X) X) /\
  fit 4 2 X self
  = (Ok tt, set_interp_func_ self
              (map (fitted_mapping (epsilon self))
                   (Np.transpose (Sklearn.n_features X) X))).
Proof.
  intros X self.
  assert (H1 : Sklearn.check_array X = Ok X) by reflexivity.
  assert (H2 : n_jobs self <> Some 0%Z) by discriminate.
  assert (H3 : Forall (fun col => 2 <= length (drop_duplicates col))
                      (Np.transpose (Sklearn.n_features X) X)).
  { repeat constructor. }
  split; [exact H1|]. split; [exact H2|]. split; [exact H3|].
  exact (proj1 (fit_stores_one_mapping_per_column 4 2 X self H1 H2 H3)).
Defined.

(** X2. Whenever [fit] raises, the exception is a [ValueError] and the
    instance is exactly as before the call: an instance that was not fitted
    stays so, and one that was keeps the mappings of its earlier fit. *)
Theorem fit_failure_keeps_instance (cpu_count minval : nat)
        (X : list (list float64)) (self self' : GuassRankScaler) (e : exn) :
  fit cpu_count minval X self = (Raise e, self') ->
  e = ValueError /\ self' = self.
Proof.
  rewrite fit_unfold.
  destruct (Sklearn.check_array X) as [X'|e'] eqn:Hc.
  - destruct (Joblib.Parallel _ _ _) as [fs|e'] eqn:Hp; [discriminate|].
    intros [= <- <-]. split; [|reflexivity].
    apply Parallel_raise_inv in Hp as [->|(t & Hin & Ht)]; [reflexivity|].
    apply in_map_iff in Hin as (col & <- & _).
    eapply _fit_raises_value_error, Ht.
  - intros [= <- <-]. split; [|reflexivity].
    unfold Sklearn.check_array in Hc. destruct X as [|r0 X]; [congruence|].
    repeat match type of Hc with
           | context [if ?c then _ else _] => destruct c
           end; congruence.
Qed.

Lemma fit_failure_keeps_instance_witness :
  let self := snd (fit 4 2 [[F 1]; [F 2]] (__init__ None None None)) in
  interp_func_ self <> None /\
  fit 4 2 [[F 1]; [NaN]] self = (Raise ValueError, self) /\
  ValueError = ValueError /\ self = self.
Proof.
  intros self.
  assert (H : fit 4 2 [[F 1]; [NaN]] self = (Raise ValueError, self))
    by (vm_compute; reflexivity).
  split; [discriminate|]. split; [exact H|].
  exact (fit_failure_keeps_instance 4 2 _ _ _ _ H).
Defined.

(** ** Which exception a column-wise method raises *)

Lemma _transform_raises erfinv_fin fs i col e :
  _transform erfinv_fin fs i col = Raise e ->
  e = IndexError /\ length fs <= i.
Proof.
  unfold _transform, interp_func_at.
  destruct (nth_error fs i) eqn:E; simpl; [discriminate|].
  intros [= <-]. split; [reflexivity|now apply nth_error_None].
Qed.

Lemma _inverse_transform_raises erf_fin minval fs i col e :
  _inverse_transform erf_fin minval fs i col = Raise e ->
  (e = IndexError /\ length fs <= i) \/ e = ValueError.
Proof.
  unfold _inverse_transform, interp_func_at.
  destruct (nth_error fs i) as [f|] eqn:E; simpl.
  - destruct (Scipy.interp1d_init minval (Scipy.y f) (Scipy.x f)) as [g|e'] eqn:Hi;
      simpl; [discriminate|].
    intros [= <-]. right. unfold Scipy.interp1d_init in Hi.
    repeat match type of Hi with
           | context [if ?c then _ else _] => destruct c
           end; congruence.
  - intros [= <-]. left. split; [reflexivity|now apply nth_error_None].
Qed.

Lemma check_array_raises X e : Sklearn.check_array X = Raise e -> e = ValueError.
Proof.
  unfold Sklearn.check_array. destruct X as [|r0 X]; [congruence|].
  repeat match goal with |- context [if ?c then _ else _] => destruct c end;
    congruence.
Qed.

(** The exceptions of a column-wise method, given those of its tasks. *)
Lemma per_column_raises cpu_count
      (task : list Scipy.interp1d -> nat -> list float64 -> result (list float64))
      X s e :
  (forall fs i col e', task fs i col = Raise e' ->
     (e' = IndexError /\ length fs <= i) \/ e' = ValueError) ->
  fst (per_column cpu_count task X s) = Raise e ->
  (e = NotFittedError /\ interp_func_ s = None) \/
  (e = ValueError /\ interp_func_ s <> None) \/
  (e = IndexError /\
   exists fs, interp_func_ s = Some fs /\ length fs < Sklearn.n_features X).
Proof.
  intros Htask. rewrite per_column_unfold.
  destruct (interp_func_ s) as [fs|]; [|intros [= <-]; now left].
  intros H. right.
  destruct (Sklearn.check_array X) as [X'|e'] eqn:Hc.
  - pose proof (check_array_ok _ _ Hc) as ->.
    destruct (Joblib.Parallel _ _ _) as [cols|e'] eqn:Hp; [discriminate|].
    simpl in H. injection H as <-.
    apply Parallel_raise_inv in Hp as [->|(t & Hin & Ht)];
      [left; split; [reflexivity|discriminate]|].
    apply in_map_iff in Hin as ([i col] & <- & Hin). simpl in Ht.
    apply Htask in Ht as [[-> Hi]| ->].
    + right. split; [reflexivity|]. exists fs. split; [reflexivity|].
      apply in_columns in Hin. lia.
    + left. split; [reflexivity|discriminate].
  - simpl in H. injection H as <-. apply check_array_raises in Hc as ->.
    left. split; [reflexivity|discriminate].
Qed.

(** X3. [transform] and [inverse_transform] raise the not-fitted error
    exactly when [interp_func_] has never been set, whatever the input; an
    index error only on an instance whose mappings are fewer than the columns
    of the input; and no other exception than these two and [ValueError]. *)
Theorem column_methods_exceptions (erf_fin erfinv_fin : Q -> Q)
        (cpu_count minval : nat) (X : list (list float64))
        (self : GuassRankScaler) :
  let t := fst (transform erfinv_fin cpu_count X self) in
  let i := fst (inverse_transform erf_fin cpu_count minval X self) in
  (t = Raise NotFittedError <-> interp_func_ self = None) /\
  (i = Raise NotFittedError <-> interp_func_ self = None) /\
  (forall r, r = t \/ r = i ->
     forall e, r = Raise e ->
       e = NotFittedError \/ e = ValueError \/
       (e = IndexError /\
        exists fs, interp_func_ self = Some fs
                   /\ length fs < Sklearn.n_features X)).
Proof.
  intros t i.
  assert (Ht : forall e, t = Raise e ->
             (e = NotFittedError /\ interp_func_ self = None) \/
             (e = ValueError /\ interp_func_ self <> None) \/
             (e = IndexError /\
              exists fs, interp_func_ self = Some fs
                         /\ length fs < Sklearn.n_features X)).
  { intros e. apply per_column_raises. intros fs j col e' H.
    left. eapply _transform_raises, H. }
  assert (Hi : forall e, i = Raise e ->
             (e = NotFittedError /\ interp_func_ self = None) \/
             (e = ValueError /\ interp_func_ self <> None) \/
             (e = IndexError /\
              exists fs, interp_func_ self = Some fs
                         /\ length fs < Sklearn.n_features X)).
  { intros e. apply per_column_raises. intros fs j col e' H.
    eapply _inverse_transform_raises, H. }
  assert (Hnone : interp_func_ self = None ->
                  t = Raise NotFittedError /\ i = Raise NotFittedError).
  { intros Hn. unfold t, i, transform, inverse_transform.
    rewrite !per_column_unfold, Hn. split; reflexivity. }
  split; [|split].
  - split; [|intros H; now apply Hnone].
    intros H. destruct (Ht _ H) as [[_ Hn]|[[E _]|[E _]]];
      [assumption|discriminate|discriminate].
  - split; [|intros H; now apply Hnone].
    intros H. destruct (Hi _ H) as [[_ Hn]|[[E _]|[E _]]];
      [assumption|discriminate|discriminate].
  - intros r [->| ->] e H.
    + destruct (Ht _ H) as [[-> _]|[[-> _]|[-> Hfs]]]; auto.
    + destruct (Hi _ H) as [[-> _]|[[-> _]|[-> Hfs]]]; auto.
Qed.

(** ** The column-wise methods act entry by entry *)

(** X4. On a fitted instance and a validated input with no more columns than
    mappings, [transform] succeeds, leaves the instance alone and returns an
    array of the input's shape; its entry (i, j) is [erfinv] of the mapping
    of column [j] evaluated at the input's entry (i, j), and depends on
    nothing else. *)
Theorem transform_entrywise (erfinv_fin : Q -> Q) (cpu_count : nat)
        (X : list (list float64)) (self : GuassRankScaler)
        (fs : list Scipy.interp1d) :
  interp_func_ self = Some fs ->
  n_jobs self <> Some 0%Z ->
  Sklearn.check_array X = Ok X ->
  Sklearn.n_features X <= length fs ->
  exists R,
    transform erfinv_fin cpu_count X self = (Ok R, self) /\
    has_shape (length X) (Sklearn.n_features X) R /\
    forall i j f, i < length X -> j < Sklearn.n_features X ->
      nth_error fs j = Some f ->
      nth j (nth i R []) NaN
      = erfinv erfinv_fin (Scipy.call_linear f (nth j (nth i X []) NaN)).
Proof.
  intros Hfs Hjobs Hc Hcount.
  set (dflt := Scipy.mk_interp1d [] []).
  destruct (per_column_entrywise cpu_count (_transform erfinv_fin)
              (fun j v => erfinv erfinv_fin (Scipy.call_linear (nth j fs dflt) v))
              X self fs Hfs Hjobs Hc) as (R & HR & Hshape & Hentry).
  - intros j col Hj. unfold _transform, interp_func_at.
    rewrite (nth_error_nth' fs dflt) by lia. simpl.
    unfold Scipy.call. now rewrite map_map.
  - exists R. split; [exact HR|]. split; [exact Hshape|].
    intros i j f Hi Hj Hf. rewrite Hentry by assumption.
    now rewrite (nth_error_nth fs j dflt Hf).
Qed.

Lemma transform_entrywise_witness :
  let self := snd (fit 4 2 [[F 1; F 5]; [F 2; F 7]] (__init__ None None None)) in
  let X := [[F 2; F 6]] in
  interp_func_ self
  = Some (map (fitted_mapping (epsilon self)) [[F 1; F 2]; [F 5; F 7]]) /\
  n_jobs self <> Some 0%Z /\ Sklearn.check_array X = Ok X /\
  exists R,
    transform example_erf 4 X self = (Ok R, self) /\
    has_shape (length X) (Sklearn.n_features X) R /\
    forall i j f, i < length X -> j < Sklearn.n_features X ->
      nth_error (map (fitted_mapping (epsilon self)) [[F 1; F 2]; [F 5; F 7]]) j
      = Some f ->
      nth j (nth i R []) NaN
      = erfinv example_erf (Scipy.call_linear f (nth j (nth i X []) NaN)).
Proof.
  intros self X.
  assert (H1 : interp_func_ self
               = Some (map (fitted_mapping (epsilon self))
                           [[F 1; F 2]; [F 5; F 7]]))
    by (vm_compute; reflexivity).
  assert (H2 : n_jobs self <> Some 0%Z) by discriminate.
  assert (H3 : Sklearn.check_array X = Ok X) by reflexivity.
  assert (H4 : Sklearn.n_features X
               <= length (map (fitted_mapping (epsilon self))
                              [[F 1; F 2]; [F 5; F 7]]))
    by (apply Nat.leb_le; reflexivity).
  split; [exact H1|]. split; [exact H2|]. split; [exact H3|].
  exact (transform_entrywise example_erf 4 X self _ H1 H2 H3 H4).
Defined.

(** X5. On an instance whose mappings have as many ordinates as abscissae
    and enough of them for [interp1d] (as every mapping stored by [fit]
    has), and a validated input with no more columns than mappings,
    [inverse_transform] succeeds, leaves the instance alone and returns an
    array of the input's shape; its entry (i, j) is the interpolator built
    from the swapped control points of mapping [j], evaluated at [erf] of the
    input's entry (i, j). *)
Theorem inverse_transform_entrywise (erf_fin : Q -> Q)
        (cpu_count minval : nat) (X : list (list float64))
        (self : GuassRankScaler) (fs : list Scipy.interp1d) :
  interp_func_ self = Some fs ->
  n_jobs self <> Some 0%Z ->
  Sklearn.check_array X = Ok X ->
  Sklearn.n_features X <= length fs ->
  Forall (invertible_shape minval) fs ->
  exists R,
    inverse_transform erf_fin cpu_count minval X self = (Ok R, self) /\
    has_shape (length X) (Sklearn.n_features X) R /\
    forall i j f, i < length X -> j < Sklearn.n_features X ->
      nth_error fs j = Some f ->
      exists g,
        Scipy.interp1d_init minval (Scipy.y f) (Scipy.x f) = Ok g /\
        nth j (nth i R []) NaN
        = Scipy.call_linear g (erf erf_fin (nth j (nth i X []) NaN)).
Proof.
  intros Hfs Hjobs Hc Hcount Hinv.
  set (dflt := Scipy.mk_interp1d [] []).
  set (G := fun j =>
              match Scipy.interp1d_init minval (Scipy.y (nth j fs dflt))
                                        (Scipy.x (nth j fs dflt)) with
              | Ok g => g
              | Raise _ => dflt
              end).
  assert (Hinit : forall j f, nth_error fs j = Some f ->
            exists g, Scipy.interp1d_init minval (Scipy.y f) (Scipy.x f) = Ok g).
  { intros j f Hf. rewrite Forall_forall in Hinv.
    destruct (Hinv f (nth_error_In _ _ Hf)) as [Hl Hm].
    apply interp1d_init_succeeds; lia. }
  destruct (per_column_entrywise cpu_count (_inverse_transform erf_fin minval)
              (fun j v => Scipy.call_linear (G j) (erf erf_fin v))
              X self fs Hfs Hjobs Hc) as (R & HR & Hshape & Hentry).
  - intros j col Hj. unfold _inverse_transform, interp_func_at.
    assert (Hf : nth_error fs j = Some (nth j fs dflt))
      by (apply nth_error_nth'; lia).
    rewrite Hf. simpl. destruct (Hinit _ _ Hf) as [g Hg].
    unfold G. rewrite Hg. simpl. unfold Scipy.call. now rewrite map_map.
  - exists R. split; [exact HR|]. split; [exact Hshape|].
    intros i j f Hi Hj Hf. destruct (Hinit _ _ Hf) as [g Hg].
    exists g. split; [exact Hg|].
    rewrite Hentry by assumption. unfold G.
    now rewrite (nth_error_nth fs j dflt Hf), Hg.
Qed.

Lemma inverse_transform_entrywise_witness :
  let self := snd (fit 4 2 [[F 1; F 5]; [F 2; F 7]] (__init__ None None None)) in
  let fs := map (fitted_mapping (epsilon self)) [[F 1; F 2]; [F 5; F 7]] in
  let X := [[F 0; F 0]] in
  interp_func_ self = Some fs /\
  n_jobs self <> Some 0%Z /\ Sklearn.check_array X = Ok X /\
  Sklearn.n_features X <= length fs /\
  Forall (invertible_shape 2) fs /\
  exists R,
    inverse_transform example_erf 4 2 X self = (Ok R, self) /\
    has_shape (length X) (Sklearn.n_features X) R.
Proof.
  intros self fs X.
  assert (H1 : interp_func_ self = Some fs) by (vm_compute; reflexivity).
  assert (H2 : n_jobs self <> Some 0%Z) by discriminate.
  assert (H3 : Sklearn.check_array X = Ok X) by reflexivity.
  assert (H4 : Sklearn.n_features X <= length fs)
    by (apply Nat.leb_le; reflexivity).
  assert (H5 : Forall (invertible_shape 2) fs).
  { repeat constructor. }
  split; [exact H1|]. split; [exact H2|]. split; [exact H3|].
  split; [exact H4|]. split; [exact H5|].
  destruct (inverse_transform_entrywise example_erf 4 2 X self fs
              H1 H2 H3 H4 H5) as (R & HR & Hs & _).
  exists R. split; [exact HR|exact Hs].
Defined.

(** ** The control points a fit stores *)

(** X6. For a feature fitted with a margin in (0, 1) on a column with at
    least two distinct values, the stored control points are as many as the
    column has distinct values; the first abscissa is the smallest value of
    the column and is stored against exactly [-bound], the last one is the
    largest value and is stored against exactly [bound]; along the
    abscissae the stored quantiles never decrease and never leave
    [-bound, bound]. *)
Theorem fitted_control_points (minval : nat) (self : GuassRankScaler)
        (x : list float64) (f : Scipy.interp1d) :
  (0 < epsilon self < 1)%Q ->
  Forall finite x ->
  2 <= length (drop_duplicates x) ->
  _fit minval self x = Ok f ->
  let n := length (Scipy.x f) in
  let bound := bound_of (epsilon self) in
  n = length (drop_duplicates x) /\ length (Scipy.y f) = n /\
  In (nth 0 (Scipy.x f) NaN) x /\ In (nth (n - 1) (Scipy.x f) NaN) x /\
  (forall a, In a x ->
     leb (nth 0 (Scipy.x f) NaN) a = true /\
     leb a (nth (n - 1) (Scipy.x f) NaN) = true) /\
  feq (nth 0 (Scipy.y f) NaN) (neg bound) /\
  feq (nth (n - 1) (Scipy.y f) NaN) bound /\
  (forall j k, j <= k -> k < n ->
     leb (nth j (Scipy.y f) NaN) (nth k (Scipy.y f) NaN) = true) /\
  (forall k, k < n ->
     leb (neg bound) (nth k (Scipy.y f) NaN) = true /\
     leb (nth k (Scipy.y f) NaN) bound = true).
Proof.
  intros Heps Hfin Htwo Hfit n bound.
  destruct (two_values_nonempty x Hfin Htwo) as [Hm Hne].
  pose proof (fit_ok_fitted_mapping minval self x f Hfin Hne Hfit) as Hf.
  destruct (fitted_abscissae (epsilon self) x Hfin)
    as (Hx & Hlen & Hs & Hin & Hcov).
  pose proof (fitted_y_fin (epsilon self) x Heps Hm) as Hy.
  rewrite <- Hf in Hx, Hlen, Hs, Hin, Hcov, Hy.
  set (qx := map to_q (Scipy.x f)) in *.
  set (m := length (first_occurrences [] x)) in *.
  set (qy := map (quantile_q (epsilon self) (m - 1)) (seq 0 m)) in *.
  assert (Hn : n = m) by (unfold n; rewrite Hx at 1; now rewrite length_map).
  assert (HX : forall k, k < m -> nth k (Scipy.x f) NaN = Fin (nth k qx 0%Q)).
  { intros k Hk. rewrite Hx at 1.
    rewrite (nth_indep _ NaN (Fin 0)) by (rewrite length_map; lia).
    apply (map_nth Fin). }
  assert (HY : forall k, k < m ->
             nth k (Scipy.y f) NaN = Fin (quantile_q (epsilon self) (m - 1) k)).
  { intros k Hk. rewrite Hy.
    rewrite (nth_indep _ NaN (Fin 0))
      by (unfold qy; rewrite !length_map, length_seq; exact Hk).
    rewrite (map_nth Fin). f_equal. unfold qy.
    rewrite (nth_indep _ 0%Q (quantile_q (epsilon self) (m - 1) 0))
      by (rewrite length_map, length_seq; exact Hk).
    rewrite map_nth, seq_nth by exact Hk. reflexivity. }
  assert (Hle : forall j k, j <= k -> k < m -> (nth j qx 0 <= nth k qx 0)%Q).
  { intros j k Hjk Hk. destruct (Nat.eq_dec j k) as [->|Hne'];
      [apply Qle_refl|].
    apply Qlt_le_weak, StronglySorted_nth; [exact Hs|lia|lia]. }
  assert (HM : 1 <= m - 1) by lia.
  rewrite Hn.
  split; [unfold m; now rewrite drop_duplicates_first_occurrences|].
  split; [rewrite Hy; unfold qy; now rewrite !length_map, length_seq|].
  rewrite !HX by lia.
  split; [apply Hin; lia|]. split; [apply Hin; lia|]. split.
  { intros a Ha. destruct (Hcov a Ha) as (k & Hk & E).
    assert (Fa : finite a) by (rewrite Forall_forall in Hfin; now apply Hfin).
    destruct a as [qa| | |]; try discriminate.
    apply (eqb_feq (Fin (nth k qx 0%Q)) (Fin qa)) in E; [|reflexivity].
    simpl in E. simpl. rewrite !Qle_bool_iff, <- E.
    split; apply Hle; lia. }
  rewrite !HY by lia. unfold bound, bound_of. simpl.
  split; [apply quantile_q_zero; assumption|].
  split; [apply quantile_q_max; assumption|]. split.
  - intros j k Hjk Hk. rewrite !HY by lia. simpl. apply Qle_bool_iff.
    apply quantile_q_mono; assumption.
  - intros k Hk. rewrite HY by lia. simpl. rewrite !Qle_bool_iff.
    apply quantile_q_range; assumption.
Qed.

Lemma fitted_control_points_witness :
  let self := __init__ None None None in
  let x := [F 3; F 1; F 2; F 1] in
  let f := fitted_mapping (epsilon self) x in
  (0 < epsilon self < 1)%Q /\ Forall finite x /\
  2 <= length (drop_duplicates x) /\ _fit 2 self x = Ok f /\
  feq (nth 0 (Scipy.y f) NaN) (neg (bound_of (epsilon self))) /\
  feq (nth (length (Scipy.x f) - 1) (Scipy.y f) NaN) (bound_of (epsilon self)).
Proof.
  intros self x f.
  assert (H1 : (0 < epsilon self < 1)%Q) by (split; reflexivity).
  assert (H2 : Forall finite x) by (repeat constructor).
  assert (H3 : 2 <= length (drop_duplicates x))
    by (apply Nat.leb_le; reflexivity).
  assert (H4 : _fit 2 self x = Ok f) by (vm_compute; reflexivity).
  repeat (split; [assumption|]).
  pose proof (fitted_control_points 2 self x f H1 H2 H3 H4)
    as (_ & _ & _ & _ & _ & Hlo & Hhi & _).
  split; [exact Hlo|exact Hhi].
Defined.

(** ** Fitting, then applying *)

(** X9. Fit a scaler on a validated array whose columns have as many
    distinct values as [interp1d] asks for, then transform any validated
    array with no more columns: both calls succeed, the second leaves the
    fitted instance as it is, the output has the shape of its input, and
    its entry (i, j) is [erfinv] of the mapping fitted on column [j] of the
    fit-time array, evaluated at the input's entry (i, j). *)
Theorem fit_then_transform_succeeds (erfinv_fin : Q -> Q)
        (cpu_count minval : nat) (X X' : list (list float64))
        (self : GuassRankScaler) :
  Sklearn.check_array X = Ok X ->
  Sklearn.check_array X' = Ok X' ->
  n_jobs self <> Some 0%Z ->
  Forall (fun col => minval <= length (drop_duplicates col))
         (Np.transpose (Sklearn.n_features X) X) ->
  Sklearn.n_features X' <= Sklearn.n_features X ->
  exists s R,
    fit cpu_count minval X self = (Ok tt, s) /\
    transform erfinv_fin cpu_count X' s = (Ok R, s) /\
    has_shape (length X') (Sklearn.n_features X') R /\
    forall i j, i < length X' -> j < Sklearn.n_features X' ->
      nth j (nth i R []) NaN
      = erfinv erfinv_fin
          (Scipy.call_linear
             (fitted_mapping (epsilon self)
                (nth j (Np.transpose (Sklearn.n_features X) X) []))
             (nth j (nth i X' []) NaN)).
Proof.
  intros Hc Hc' Hjobs Hcols Hcount.
  set (cols := Np.transpose (Sklearn.n_features X) X) in *.
  set (fs := map (fitted_mapping (epsilon self)) cols).
  set (s := set_interp_func_ self fs).
  set (dflt := Scipy.mk_interp1d [] []).
  assert (Hfit : fit cpu_count minval X self = (Ok tt, s))
    by now apply fit_on_validated.
  assert (Hlen : length fs = Sklearn.n_features X)
    by (unfold fs, cols; now rewrite length_map, transpose_length).
  destruct (per_column_entrywise cpu_count (_transform erfinv_fin)
              (fun j v => erfinv erfinv_fin (Scipy.call_linear (nth j fs dflt) v))
              X' s fs eq_refl Hjobs Hc') as (R & HR & Hshape & Hentry).
  { intros j col Hj. unfold _transform, interp_func_at.
    rewrite (nth_error_nth' fs dflt) by lia.
    simpl. unfold Scipy.call. now rewrite map_map. }
  exists s, R. split; [exact Hfit|]. split; [exact HR|]. split; [exact Hshape|].
  intros i j Hi Hj. rewrite Hentry by assumption.
  unfold fs. rewrite (nth_map_in _ _ j dflt []); [reflexivity|].
  unfold cols. rewrite transpose_length. lia.
Qed.

Lemma fit_then_transform_succeeds_witness :
  let X := [[F 1; F 5]; [F 2; F 7]; [F 2; F 6]] in
  let X' := [[F 9]; [F 0]] in
  let self := __init__ None None None in
  Sklearn.check_array X = Ok X /\ Sklearn.check_array X' = Ok X' /\
  n_jobs self <> Some 0%Z /\
  Forall (fun col => 2 <= length (drop_duplicates col))
         (Np.transpose (Sklearn.n_features X) X) /\
  Sklearn.n_features X' <= Sklearn.n_features X /\
  exists s R,
    fit 4 2 X self = (Ok tt, s) /\
    transform example_erf 4 X' s = (Ok R, s) /\
    has_shape (length X') (Sklearn.n_features X') R.
Proof.
  intros X X' self.
  assert (H1 : Sklearn.check_array X = Ok X) by reflexivity.
  assert (H1' : Sklearn.check_array X' = Ok X') by reflexivity.
  assert (H2 : n_jobs self <> Some 0%Z) by discriminate.
  assert (H3 : Forall (fun col => 2 <= length (drop_duplicates col))
                      (Np.transpose (Sklearn.n_features X) X)).
  { repeat constructor. }
  assert (H4 : Sklearn.n_features X' <= Sklearn.n_features X)
    by (apply Nat.leb_le; reflexivity).
  repeat (split; [assumption|]).
  destruct (fit_then_transform_succeeds example_erf 4 2 X X' self
              H1 H1' H2 H3 H4) as (s & R & Hf & Ht & Hs & _).
  exists s, R. split; [exact Hf|]. split; [exact Ht|exact Hs].
Defined.

(** ** Fitting depends on the set of values only *)

Lemma sorted_same_elements (l l' : list Q) :
  StronglySorted Qlt l -> StronglySorted Qlt l' ->
  (forall a, In a l -> exists b, In b l' /\ (a == b)%Q) ->
  (forall b, In b l' -> exists a, In a l /\ (b == a)%Q) ->
  Forall2 Qeq l l'.
Proof.
  revert l'. induction l as [|a t IH]; intros l' Hs Hs' H1 H2.
  - destruct l' as [|b t']; [constructor|].
    destruct (H2 b (or_introl eq_refl)) as (a & [] & _).
  - destruct l' as [|b t'].
    { destruct (H1 a (or_introl eq_refl)) as (b & [] & _). }
    apply StronglySorted_inv in Hs as [Hst Ha].
    apply StronglySorted_inv in Hs' as [Hst' Hb].
    rewrite Forall_forall in Ha, Hb.
    assert (Hab : (a == b)%Q).
    { destruct (H1 a (or_introl eq_refl)) as (b0 & Hb0 & E0).
      destruct (H2 b (or_introl eq_refl)) as (a0 & Ha0 & E1).
      destruct Hb0 as [<-|Hb0]; [exact E0|].
      destruct Ha0 as [<-|Ha0]; [symmetry; exact E1|].
      specialize (Ha a0 Ha0). specialize (Hb b0 Hb0). lra. }
    constructor; [exact Hab|].
    apply IH; try assumption.
    + intros a1 Ha1. destruct (H1 a1 (or_intror Ha1)) as (b1 & [<-|Hb1] & E).
      * specialize (Ha a1 Ha1). lra.
      * now exists b1.
    + intros b1 Hb1. destruct (H2 b1 (or_intror Hb1)) as (a1 & [<-|Ha1] & E).
      * specialize (Hb b1 Hb1). lra.
      * now exists a1.
Qed.

Lemma control_points_transfer (eps : Q) (x x' : list float64) :
  Forall finite x -> Forall finite x' ->
  (forall a, In a x -> exists b, In b x' /\ eqb a b = true) ->
  forall q, In q (map to_q (Scipy.x (fitted_mapping eps x))) ->
  exists q', In q' (map to_q (Scipy.x (fitted_mapping eps x'))) /\ (q == q')%Q.
Proof.
  intros Hfin Hfin' H q Hq.
  apply control_points_from_column in Hq; [|assumption].
  destruct (H _ Hq) as (b & Hb & E).
  destruct (control_points_cover eps x' b Hfin' Hb) as (q' & Hq' & E').
  exists q'. split; [assumption|].
  rewrite eqb_sym in E'.
  pose proof (eqb_trans _ _ _ E E') as E2.
  now apply (eqb_feq (Fin q) (Fin q')) in E2.
Qed.

(** X12. The interpolator [_fit] builds depends only on the set of
    distinct values of the column: two finite columns holding the same
    values, in any row order and with any repetitions, are both refused or
    both fitted, and then with equal control values and identical scaled
    ranks. *)
Theorem fit_depends_on_distinct_values (minval : nat) (self : GuassRankScaler)
        (x x' : list float64) :
  Forall finite x -> Forall finite x' -> x <> [] ->
  (forall a, In a x -> exists b, In b x' /\ eqb a b = true) ->
  (forall b, In b x' -> exists a, In a x /\ eqb b a = true) ->
  match _fit minval self x, _fit minval self x' with
  | Ok f, Ok f' =>
      Forall2 feq (Scipy.x f) (Scipy.x f') /\ Scipy.y f = Scipy.y f'
  | Raise e, Raise e' => e = e'
  | _, _ => False
  end.
Proof.
  intros Hfin Hfin' Hne H1 H2.
  assert (Hne' : x' <> []).
  { destruct x as [|a t]; [congruence|].
    destruct (H1 a (or_introl eq_refl)) as (b & Hb & _).
    intros ->. destruct Hb. }
  set (eps := epsilon self).
  assert (Hx : Forall2 Qeq (map to_q (Scipy.x (fitted_mapping eps x)))
                           (map to_q (Scipy.x (fitted_mapping eps x')))).
  { apply sorted_same_elements.
    - now apply fitted_qx_sorted.
    - now apply fitted_qx_sorted.
    - now apply control_points_transfer.
    - now apply control_points_transfer. }
  assert (Hlen : length (first_occurrences [] x)
                 = length (first_occurrences [] x')).
  { rewrite <- (fitted_qx_length eps x), <- (fitted_qx_length eps x').
    eapply Forall2_length, Hx. }
  rewrite !fit_char by assumption. rewrite <- Hlen. fold eps.
  destruct (length (first_occurrences [] x) <? minval); [reflexivity|].
  split.
  - rewrite (fitted_x_fin eps x Hfin), (fitted_x_fin eps x' Hfin').
    induction Hx; simpl; constructor; assumption.
  - unfold fitted_mapping. simpl. now rewrite Hlen.
Qed.

Lemma fit_depends_on_distinct_values_witness :
  let self := __init__ None None None in
  let x := [F 3; F 1; F 2; F 1] in
  let x' := [F 2; F 2; F 3; F 1] in
  match _fit 2 self x, _fit 2 self x' with
  | Ok f, Ok f' =>
      Forall2 feq (Scipy.x f) (Scipy.x f') /\ Scipy.y f = Scipy.y f'
  | Raise e, Raise e' => e = e'
  | _, _ => False
  end.
Proof.
  intros self x x'.
  apply (fit_depends_on_distinct_values 2 self x x').
  - repeat constructor.
  - repeat constructor.
  - discriminate.
  - intros a Ha. simpl in Ha.
    repeat (destruct Ha as [<-|Ha];
            [match goal with
             | |- exists b, _ /\ eqb ?v b = true => exists v
             end; split; [simpl; tauto|reflexivity]|]).
    destruct Ha.
  - intros a Ha. simpl in Ha.
    repeat (destruct Ha as [<-|Ha];
            [match goal with
             | |- exists b, _ /\ eqb ?v b = true => exists v
             end; split; [simpl; tauto|reflexivity]|]).
    destruct Ha.
Defined.

(** ** Columns with too few distinct values *)

Lemma constant_column_values (v : float64) (t : list float64) :
  finite v -> Forall (fun a => eqb a v = true) t ->
  Forall finite (v :: t) /\ first_occurrences [] (v :: t) = [v].
Proof.
  intros Hv Ht. split.
  - constructor; [assumption|]. rewrite Forall_forall in *.
    intros a Ha. apply (eqb_finite a v Hv). now apply Ht.
  - simpl. f_equal. apply first_occurrences_all_seen.
    intros a Ha. exists v. split; [now left|].
    rewrite Forall_forall in Ht. rewrite eqb_sym. now apply Ht.
Qed.

Lemma call_linear_nan_ordinate (a w : float64) :
  Scipy.call_linear (Scipy.mk_interp1d [a] [NaN]) w = NaN.
Proof.
  unfold Scipy.call_linear. cbn [Scipy.x Scipy.y length Np.searchsorted].
  destruct (ltb a w); reflexivity.
Qed.

(** X13. A column whose entries all equal one finite value: where
    [interp1d] asks for two control points [_fit] raises a [ValueError];
    where it accepts one, [_fit] stores that value against a nan quantile,
    and [_transform] then returns nan for every input of that feature. *)
Theorem constant_column_outcome (erfinv_fin : Q -> Q) (minval : nat)
        (self : GuassRankScaler) (v : float64) (t : list float64) :
  finite v -> Forall (fun a => eqb a v = true) t ->
  (2 <= minval -> _fit minval self (v :: t) = Raise ValueError) /\
  (minval <= 1 ->
   _fit minval self (v :: t) = Ok (Scipy.mk_interp1d [v] [NaN]) /\
   forall w, _transform erfinv_fin [Scipy.mk_interp1d [v] [NaN]] 0 [w]
             = Ok [NaN]).
Proof.
  intros Hv Ht.
  destruct (constant_column_values v t Hv Ht) as [Hfin Hu].
  assert (Hfit : _fit minval self (v :: t)
                 = if 1 <? minval then Raise ValueError
                   else Ok (Scipy.mk_interp1d [v] [NaN])).
  { rewrite fit_char by (assumption || discriminate).
    unfold fitted_mapping. rewrite Hu. reflexivity. }
  split; intros Hm; rewrite Hfit.
  - destruct (Nat.ltb_spec 1 minval); [reflexivity|lia].
  - destruct (Nat.ltb_spec 1 minval); [lia|]. split; [reflexivity|].
    intros w. unfold _transform. cbn [interp_func_at nth_error rbind].
    unfold Scipy.call. cbn [map].
    rewrite call_linear_nan_ordinate. reflexivity.
Qed.

Lemma constant_column_outcome_witness :
  finite (F 7) /\ Forall (fun a => eqb a (F 7) = true) [F 7; F 7] /\
  _fit 2 (__init__ None None None) [F 7; F 7; F 7] = Raise ValueError /\
  _fit 1 (__init__ None None None) [F 7; F 7; F 7]
  = Ok (Scipy.mk_interp1d [F 7] [NaN]).
Proof.
  assert (H : finite (F 7)) by reflexivity.
  assert (H' : Forall (fun a => eqb a (F 7) = true) [F 7; F 7])
    by (repeat constructor).
  split; [exact H|]. split; [exact H'|]. split.
  - apply (proj1 (constant_column_outcome example_erf 2
                    (__init__ None None None) (F 7) [F 7; F 7] H H')).
    apply Nat.leb_le. reflexivity.
  - apply (proj2 (constant_column_outcome example_erf 1
                    (__init__ None None None) (F 7) [F 7; F 7] H H')).
    apply Nat.leb_le. reflexivity.
Defined.

(** X14. On a validated array and with a worker count other than zero,
    [fit] raises a [ValueError] and leaves the instance as it was as soon
    as one column has fewer distinct values than [interp1d] asks for, also
    when all other columns could be fitted. *)
Theorem fit_refuses_short_column (cpu_count minval : nat)
        (X : list (list float64)) (self : GuassRankScaler) :
  Sklearn.check_array X = Ok X ->
  n_jobs self <> Some 0%Z ->
  Exists (fun col => length (drop_duplicates col) < minval)
         (Np.transpose (Sklearn.n_features X) X) ->
  fit cpu_count minval X self = (Raise ValueError, self).
Proof.
  intros Hc Hjobs Hshort.
  destruct (effective_n_jobs_ok cpu_count _ Hjobs) as [w Hw].
  rewrite (fit_in_order cpu_count minval X self w Hw), Hc.
  destruct (sequence _) as [fs|e] eqn:Hs.
  - exfalso. apply sequence_ok_inv in Hs.
    apply Exists_exists in Hshort as (col & Hin & Hlt).
    destruct (validated_columns X col Hc Hin) as (Hfin & Hne & _).
    rewrite drop_duplicates_first_occurrences in Hlt by assumption.
    apply In_nth_error in Hin as [j Hj].
    revert Hs. revert j Hj.
    generalize (Np.transpose (Sklearn.n_features X) X). intros l j Hj Hs.
    revert j Hj. induction Hs as [|a b l bs Hab _ IH]; intros j Hj.
    + destruct j; discriminate.
    + destruct j as [|j]; [|now apply (IH j)].
      injection Hj as ->. rewrite fit_char in Hab by assumption.
      apply Nat.ltb_lt in Hlt. rewrite Hlt in Hab. discriminate.
  - apply sequence_raise_inv in Hs as (col & _ & Hcol).
    now rewrite (_fit_raises_value_error _ _ _ _ Hcol).
Qed.

Lemma fit_refuses_short_column_witness :
  let X := [[F 1; F 5]; [F 2; F 5]; [F 3; F 5]] in
  let self := __init__ None None None in
  Sklearn.check_array X = Ok X /\ n_jobs self <> Some 0%Z /\
  fit 4 2 X self = (Raise ValueError, self).
Proof.
  intros X self.
  assert (H1 : Sklearn.check_array X = Ok X) by reflexivity.
  assert (H2 : n_jobs self <> Some 0%Z) by discriminate.
  split; [exact H1|]. split; [exact H2|].
  apply (fit_refuses_short_column 4 2 X self H1 H2).
  apply Exists_cons_tl, Exists_cons_hd.
  apply Nat.ltb_lt. reflexivity.
Defined.

(** ** Deduplication is idempotent *)

Lemma first_occurrences_of_distinct (seen u : list float64) :
  ForallOrdPairs (fun a b => eqb a b = false) u ->
  (forall s d, In s seen -> In d u -> eqb s d = false) ->
  first_occurrences seen u = u.
Proof.
  revert seen. induction u as [|a t IH]; intros seen Hd Hs; [reflexivity|].
  simpl.
  assert (Ex : existsb (fun p => eqb p a) seen = false).
  { destruct (existsb _ seen) eqn:E; [|reflexivity].
    apply existsb_exists in E as (s & Hin & E).
    rewrite (Hs s a Hin (or_introl eq_refl)) in E. discriminate. }
  rewrite Ex. f_equal.
  inversion Hd as [|? ? Ha Ht]; subst.
  apply IH; [assumption|].
  intros s d Hin Hdt. apply in_app_or in Hin as [Hin|[<-|[]]].
  - apply Hs; [assumption|now right].
  - rewrite Forall_forall in Ha. now apply Ha.
Qed.

(** X15. [drop_duplicates] is idempotent on finite columns, and it returns
    a column of pairwise different values unchanged. *)
Theorem drop_duplicates_idempotent (x : list float64) :
  Forall finite x ->
  drop_duplicates (drop_duplicates x) = drop_duplicates x /\
  (ForallOrdPairs (fun a b => eqb a b = false) x -> drop_duplicates x = x).
Proof.
  intros Hfin.
  rewrite (drop_duplicates_first_occurrences x Hfin).
  rewrite drop_duplicates_first_occurrences
    by now apply first_occurrences_finite.
  split.
  - apply first_occurrences_of_distinct.
    + apply first_occurrences_distinct.
    + intros s d [].
  - intros Hd. apply first_occurrences_of_distinct; [exact Hd|].
    intros s d [].
Qed.

Lemma drop_duplicates_idempotent_witness :
  let x := [F 3; F 1; F 3; F 2; F 1] in
  Forall finite x /\
  drop_duplicates (drop_duplicates x) = drop_duplicates x.
Proof.
  intros x.
  assert (H : Forall finite x) by (repeat constructor).
  split; [exact H|]. exact (proj1 (drop_duplicates_idempotent x H)).
Defined.
